(** * Closed kinematic chain example: the four-bar linkage script

    A shallow embedding of [examples/simulation-closed-kinematic-chains.py].
    The script is glue code: it assembles a model through library calls,
    runs a proximal inverse-kinematics loop, wraps the solution and then
    integrates the constrained dynamics.  The embedding keeps

    - the float64 arithmetic the script performs itself (decimal literals,
      [+], [-], [*], [/], [%] and comparisons on numpy arrays and Python
      floats), with round-to-nearest-even written out on integers;
    - the library (pinocchio, hpp-fcl, numpy's linear algebra, the viewer)
      as an interface of total functions, a record the script is
      parametric in;
    - the statement order and the two loops as explicit state passing
      with a trace of the calls made, each entry tagged with the source
      line that made it. *)

From Stdlib Require Import ZArith List String Bool Lia Znumtheory.
From Stdlib Require Import Floats.SpecFloat.
Import ListNotations.
Open Scope Z_scope.

(* ================================================================= *)
(** ** Binary64 arithmetic *)

(** A finite double is an integer multiple of [2^-1074]; [Fin n] stands
    for [n * 2^-1074].  The two zeros are identified: no comparison or
    operation of the script tells them apart. *)

Module F64.

Inductive t : Type :=
| NaN
| Inf (neg : bool)
| Fin (n : Z).

Definition emin : Z := 1074.
Definition huge : Z := 2 ^ (1024 + emin).

(** Nearest integer to [a / b] for [b > 0], ties to even. *)
Definition rne_div (a b : Z) : Z :=
  let q := a / b in
  match (2 * (a mod b) ?= b) with
  | Lt => q
  | Gt => q + 1
  | Eq => if Z.even q then q else q + 1
  end.

(** Exponent (in units of [2^-1074]) of the last place of [a / b]. *)
Definition ulp_exp (a b : Z) : Z := Z.max 0 (Z.log2 (Z.abs a / b) - 52).

(** [a / b] rounded to 53 significant bits, before the overflow test. *)
Definition round (a b : Z) : Z :=
  let k := ulp_exp a b in rne_div a (b * 2 ^ k) * 2 ^ k.

Definition mk (a b : Z) : t :=
  let r := round a b in
  if Z.abs r <? huge then Fin r else Inf (r <? 0).

Definition representable (n : Z) : bool :=
  (round n 1 =? n) && (Z.abs n <? huge).

Definition finite (x : t) : bool :=
  match x with Fin n => representable n | _ => false end.

(** Decimal literal [m * 10^e], correctly rounded as Python reads it. *)
Definition lit (m e : Z) : t :=
  if 0 <=? e then mk (m * 10 ^ e * 2 ^ emin) 1
  else mk (m * 2 ^ emin) (10 ^ (- e)).

Definition of_int (z : Z) : t := mk (z * 2 ^ emin) 1.

Definition zero : t := Fin 0.
Definition one : t := Fin (2 ^ emin).

Definition neg (x : t) : t :=
  match x with
  | NaN => NaN
  | Inf s => Inf (negb s)
  | Fin n => Fin (- n)
  end.

Definition add (x y : t) : t :=
  match x, y with
  | NaN, _ | _, NaN => NaN
  | Inf s, Inf s' => if Bool.eqb s s' then Inf s else NaN
  | Inf s, Fin _ | Fin _, Inf s => Inf s
  | Fin a, Fin b => mk (a + b) 1
  end.

Definition sub (x y : t) : t := add x (neg y).

Definition mul (x y : t) : t :=
  match x, y with
  | NaN, _ | _, NaN => NaN
  | Inf s, Inf s' => Inf (xorb s s')
  | Inf s, Fin n | Fin n, Inf s =>
      if n =? 0 then NaN else Inf (xorb s (n <? 0))
  | Fin a, Fin b => mk (a * b) (2 ^ emin)
  end.

Definition div (x y : t) : t :=
  match x, y with
  | NaN, _ | _, NaN => NaN
  | Inf _, Inf _ => NaN
  | Inf s, Fin n => Inf (xorb s (n <? 0))
  | Fin _, Inf _ => zero
  | Fin a, Fin b =>
      if b =? 0 then (if a =? 0 then NaN else Inf (a <? 0))
      else mk (Z.sgn b * a * 2 ^ emin) (Z.abs b)
  end.

(** C [fmod]: the remainder has the sign of the dividend and is exact. *)
Definition fmod (x y : t) : t :=
  match x, y with
  | NaN, _ | _, NaN => NaN
  | Inf _, _ => NaN
  | Fin a, Inf _ => Fin a
  | Fin a, Fin b => if b =? 0 then NaN else Fin (Z.rem a b)
  end.

Definition is_zero (x : t) : bool :=
  match x with Fin 0 => true | _ => false end.

Definition is_neg (x : t) : bool :=
  match x with NaN => false | Inf s => s | Fin n => n <? 0 end.

(** [%] on float64 arrays (numpy's [remainder], as Python's float [%]):
    [fmod], then one divisor is added when the signs differ. *)
Definition rem (x y : t) : t :=
  let m := fmod x y in
  if is_zero y then m
  else if is_zero m then m
  else if Bool.eqb (is_neg y) (is_neg m) then m
  else add m y.

Definition ltb (x y : t) : bool :=
  match x, y with
  | NaN, _ | _, NaN => false
  | Inf s, Inf s' => s && negb s'
  | Inf s, Fin _ => s
  | Fin _, Inf s => negb s
  | Fin a, Fin b => a <? b
  end.

Definition leb (x y : t) : bool :=
  match x, y with
  | NaN, _ | _, NaN => false
  | Inf s, Inf s' => s || negb s'
  | Inf s, Fin _ => s
  | Fin _, Inf s => negb s
  | Fin a, Fin b => a <=? b
  end.

(** [np.pi = 0x1.921fb54442d18p+1]. *)
Definition pi : t := Fin (884279719003555 * 2 ^ (emin - 48)).

(** Both directions between this representation and the Standard
    Library's IEEE 754 model [spec_float], used to cross-check the
    operations above on samples. *)
Definition to_spec (x : t) : spec_float :=
  match x with
  | NaN => S754_nan
  | Inf s => S754_infinity s
  | Fin n => binary_normalize 53 1024 n (- emin) false
  end.

Definition of_spec (f : spec_float) : t :=
  match f with
  | S754_nan => NaN
  | S754_infinity s => Inf s
  | S754_zero _ => Fin 0
  | S754_finite s m e => Fin (cond_Zopp s (Zpos m) * 2 ^ (e + emin))
  end.

End F64.

(* ================================================================= *)
(** ** numpy arrays of float64 *)

(** One-dimensional arrays are lists; the element-wise operations pair
    the operands position by position.  Every array the script combines
    has the shape the library contract gives it ([constraint_dim] or
    [model.nv] entries), so no broadcasting takes place. *)

Module Np.

Definition array := list F64.t.

Fixpoint map2 (f : F64.t -> F64.t -> F64.t) (a b : array) : array :=
  match a, b with
  | x :: a', y :: b' => f x y :: map2 f a' b'
  | _, _ => []
  end.

Definition zeros (n : nat) : array := repeat F64.zero n.
Definition ones (n : nat) : array := repeat F64.one n.

Definition neg (a : array) : array := map F64.neg a.
Definition add (a b : array) : array := map2 F64.add a b.
Definition sub (a b : array) : array := map2 F64.sub a b.
(** array [op] scalar and scalar [op] array *)
Definition add_s (a : array) (s : F64.t) : array := map (fun x => F64.add x s) a.
Definition sub_s (a : array) (s : F64.t) : array := map (fun x => F64.sub x s) a.
Definition mul_s (a : array) (s : F64.t) : array := map (fun x => F64.mul x s) a.
Definition s_mul (s : F64.t) (a : array) : array := map (fun x => F64.mul s x) a.
Definition div_s (a : array) (s : F64.t) : array := map (fun x => F64.div x s) a.
Definition rem_s (a : array) (s : F64.t) : array := map (fun x => F64.rem x s) a.

Definition concatenate (a b : array) : array := a ++ b.

(** [a[:n]] and [a[n:]] *)
Definition upto (n : nat) (a : array) : array := firstn n a.
Definition from (n : nat) (a : array) : array := skipn n a.

(** Two-dimensional arrays, by rows. *)
Definition matrix := list array.

Definition eye (n : nat) : matrix :=
  map (fun i => map (fun j => if Nat.eqb i j then F64.one else F64.zero)
                    (seq 0 n)) (seq 0 n).

Definition mat_mul_s (m : matrix) (s : F64.t) : matrix :=
  map (fun row => mul_s row s) m.

End Np.

(* ================================================================= *)
(** ** The objects the script hands to the library *)

Definition JointIndex := nat.

(** A rotation is kept as the expression that builds it. *)
Inductive Rotation : Type :=
| RotIdentity
| FromTwoVectors (a b : Np.array).

Record SE3 : Type := mkSE3 {
  rotation : Rotation;
  translation : Np.array
}.

Definition SE3_Identity : SE3 := mkSE3 RotIdentity (Np.zeros 3).
Definition set_translation (p : SE3) (v : Np.array) : SE3 :=
  mkSE3 (rotation p) v.
Definition set_rotation (p : SE3) (r : Rotation) : SE3 :=
  mkSE3 r (translation p).

Inductive Shape : Type :=
| Capsule (radius length : F64.t).

Inductive Inertia : Type :=
| FromBox (mass x y z : F64.t).

Inductive JointModel : Type :=
| JointModelRX
| JointModelRY
| JointModelRZ.

Record GeometryObject : Type := mkGeometryObject {
  geom_name : string;
  parent_joint : JointIndex;
  geometry : Shape;
  placement : SE3;
  meshColor : option Np.array
}.

Definition set_meshColor (g : GeometryObject) (c : Np.array) : GeometryObject :=
  mkGeometryObject (geom_name g) (parent_joint g) (geometry g) (placement g)
                   (Some c).

Inductive ContactType : Type :=
| CONTACT_3D
| CONTACT_6D
| CONTACT_UNDEFINED.

Record RigidContactModel (Frame : Type) : Type := mkRigidContactModel {
  contact_type : ContactType;
  joint1_id : JointIndex;
  joint1_placement : SE3;
  joint2_id : JointIndex;
  joint2_placement : SE3;
  reference_frame : Frame;
  corrector_Kp : F64.t;
  corrector_Kd : F64.t
}.

Arguments mkRigidContactModel {Frame}.
Arguments contact_type {Frame}.
Arguments joint1_id {Frame}.
Arguments joint1_placement {Frame}.
Arguments joint2_id {Frame}.
Arguments joint2_placement {Frame}.
Arguments reference_frame {Frame}.
Arguments corrector_Kp {Frame}.
Arguments corrector_Kd {Frame}.

(* ================================================================= *)
(** ** The library interface *)

(** Everything the script delegates: every field is a total function of
    its explicit arguments; objects the library mutates come back as
    results. *)

Record Library : Type := mkLibrary {
  Model : Type;
  GeometryModel : Type;
  Data : Type;
  ContactData : Type;
  Cholesky : Type;
  Visualizer : Type;
  Frame : Type;
  (* pin.XAxis, pin.ZAxis *)
  XAxis : Np.array;
  ZAxis : Np.array;
  (* pin.Model *)
  Model_new : Model;
  addJoint : Model -> JointIndex -> JointModel -> SE3 -> string ->
             Model * JointIndex;
  appendBodyToJoint : Model -> JointIndex -> Inertia -> SE3 -> Model;
  nv : Model -> nat;
  neutral : Model -> Np.array;
  createData : Model -> Data;
  (* pin.GeometryModel *)
  GeometryModel_new : GeometryModel;
  addGeometryObject : GeometryModel -> GeometryObject -> GeometryModel;
  (* GepettoVisualizer *)
  GepettoVisualizer : Model -> GeometryModel -> GeometryModel -> Visualizer;
  initViewer : Visualizer -> Visualizer;
  loadViewerModel : Visualizer -> string -> Visualizer;
  getWindowID : Visualizer -> string -> nat;
  setBackgroundColor1 : Visualizer -> nat -> Np.array -> Visualizer;
  setBackgroundColor2 : Visualizer -> nat -> Np.array -> Visualizer;
  display : Visualizer -> Np.array -> Visualizer;
  (* pin.RigidContactModel *)
  default_frame : Frame;
  default_Kp : F64.t;
  default_Kd : F64.t;
  contact_createData : RigidContactModel Frame -> ContactData;
  contact_size : RigidContactModel Frame -> nat;
  c1Mc2 : ContactData -> SE3;
  (* kinematics *)
  set_M : Data -> Np.matrix -> Data;
  forwardKinematics : Model -> Data -> Np.array -> Data;
  computeJointJacobians : Model -> Data -> Np.array -> Data;
  getFrameJacobian : Model -> Data -> JointIndex -> SE3 -> Frame -> Np.matrix;
  integrate : Model -> Np.array -> Np.array -> Np.array;
  (* pin.ContactCholeskyDecomposition *)
  Cholesky_new : Model -> list (RigidContactModel Frame) -> Cholesky;
  compute : Cholesky -> Model -> Data -> list (RigidContactModel Frame) ->
            list ContactData -> F64.t -> Cholesky * Data * ContactData;
  solve : Cholesky -> Np.array -> Np.array;
  (* constrained dynamics *)
  initContactDynamics : Model -> Data -> list (RigidContactModel Frame) -> Data;
  contactDynamics : Model -> Data -> Np.array -> Np.array -> Np.array ->
                    list (RigidContactModel Frame) -> list ContactData ->
                    F64.t -> Np.array * Data * ContactData;
  (* numpy *)
  norm_inf : Np.array -> F64.t;
  norm : Np.array -> F64.t;
  T_dot : Np.matrix -> Np.array -> Np.array;
  sqrt : F64.t -> F64.t
}.

(** [pin.RigidContactModel(type, joint1_id, joint1_placement, joint2_id,
    joint2_placement)]: the remaining attributes take the library's
    defaults. *)
Definition RigidContactModel_new (L : Library) (ty : ContactType)
    (j1 : JointIndex) (p1 : SE3) (j2 : JointIndex) (p2 : SE3)
  : RigidContactModel (Frame L) :=
  mkRigidContactModel ty j1 p1 j2 p2 (default_frame L) (default_Kp L)
                      (default_Kd L).

Definition set_corrector {F : Type} (c : RigidContactModel F) (kp kd : F64.t)
  : RigidContactModel F :=
  mkRigidContactModel (contact_type c) (joint1_id c) (joint1_placement c)
                      (joint2_id c) (joint2_placement c) (reference_frame c)
                      kp kd.

(* ================================================================= *)
(** ** Runs, traces and the process environment *)

(** What a run leaves behind: the calls with an effect outside the
    script, in order, each with the source line of its statement. *)
Inductive Event : Type :=
| AddGeometryObject (g : GeometryObject)
| AddJoint (parent : JointIndex) (jm : JointModel) (pl : SE3) (name : string)
           (id : JointIndex)
| AppendBodyToJoint (j : JointIndex) (i : Inertia) (pl : SE3)
| NewContactModel (ty : ContactType) (j1 : JointIndex) (p1 : SE3)
                  (j2 : JointIndex) (p2 : SE3)
| Viewer (op : string) (args : list Np.array)
| Display (q : Np.array)
| Print (msg : string) (vals : list F64.t)
| KKTCompute (mu : F64.t)
| KKTSolve (rhs dz : Np.array)
| Call (fn : string) (args : list Np.array)
| Sleep (d : F64.t).

Record Entry : Type := mkEntry { line : nat; event : Event }.

(** The process environment a run starts in.  The script has no
    statement that reads it (the only [input()], on line 134, is commented
    out), so no operation below consults it. *)
Record Env : Type := mkEnv {
  argv : list string;
  stdin : list string
}.

Definition M (A : Type) : Type := Env -> A * list Entry.

Definition ret {A : Type} (a : A) : M A := fun _ => (a, []).

Definition bind {A B : Type} (m : M A) (f : A -> M B) : M B :=
  fun env =>
    let (a, l1) := m env in
    let (b, l2) := f a env in
    (b, l1 ++ l2).

(** A statement at line [ln] whose library call yields [a]. *)
Definition at_line {A : Type} (ln : nat) (ev : Event) (a : A) : M A :=
  fun _ => (a, [mkEntry ln ev]).

Definition result {A : Type} (m : M A) (env : Env) : A := fst (m env).
Definition trace {A : Type} (m : M A) (env : Env) : list Entry := snd (m env).

Declare Scope script_scope.
Delimit Scope script_scope with script.
Notation "x <- m ;; k" := (bind m (fun x => k))
  (at level 61, m at next level, right associativity) : script_scope.
Notation "' p <- m ;; k" := (bind m (fun x => match x with p => k end))
  (at level 61, p pattern, m at next level, right associativity) : script_scope.

(* ================================================================= *)
(** ** The script *)

Section Script.

Context (L : Library).

Local Open Scope script_scope.
Local Open Scope string_scope.

Definition Contact : Type := RigidContactModel (Frame L).

(** *** Lines 8-38: dimensions, shapes, inertias, placements, colours *)

Definition height : F64.t := F64.lit 1 (-1).
Definition width : F64.t := F64.lit 1 (-2).
Definition radius : F64.t := F64.lit 5 (-2).

Definition mass_link_A : F64.t := F64.lit 10 0.
Definition length_link_A : F64.t := F64.lit 1 0.
Definition shape_link_A : Shape := Capsule radius length_link_A.

Definition mass_link_B : F64.t := F64.lit 5 0.
Definition length_link_B : F64.t := F64.lit 6 (-1).
Definition shape_link_B : Shape := Capsule radius length_link_B.

Definition two : F64.t := F64.lit 2 0.

Definition inertia_link_A : Inertia :=
  FromBox mass_link_A length_link_A width height.
Definition placement_center_link_A : SE3 :=
  set_translation SE3_Identity (Np.div_s (Np.mul_s (XAxis L) length_link_A) two).
Definition placement_shape_A : SE3 :=
  set_rotation placement_center_link_A (FromTwoVectors (ZAxis L) (XAxis L)).

Definition inertia_link_B : Inertia :=
  FromBox mass_link_B length_link_B width height.
Definition placement_center_link_B : SE3 :=
  set_translation SE3_Identity (Np.div_s (Np.mul_s (XAxis L) length_link_B) two).
Definition placement_shape_B : SE3 :=
  set_rotation placement_center_link_B (FromTwoVectors (ZAxis L) (XAxis L)).

Definition RED_COLOR : Np.array := [F64.one; F64.zero; F64.zero; F64.one].
Definition WHITE_COLOR : Np.array := [F64.one; F64.one; F64.one; F64.one].

(** *** Lines 34-67: the model and its geometry *)

Record Built : Type := mkBuilt {
  model : Model L;
  collision_model : GeometryModel L;
  joint1 : JointIndex;
  joint2 : JointIndex;
  joint3 : JointIndex
}.

Definition base_joint_id : JointIndex := 0%nat.

Definition joint1_placement_ : SE3 :=
  set_translation SE3_Identity (Np.div_s (Np.mul_s (XAxis L) length_link_A) two).
Definition joint2_placement_ : SE3 :=
  set_translation SE3_Identity (Np.mul_s (XAxis L) length_link_B).
Definition joint3_placement_ : SE3 :=
  set_translation SE3_Identity (Np.mul_s (XAxis L) length_link_A).

Definition build : M Built :=
  let model := Model_new L in
  let collision_model := GeometryModel_new L in
  let geom_obj0 :=
    set_meshColor
      (mkGeometryObject "link_A1" base_joint_id shape_link_A
         (mkSE3 (FromTwoVectors (ZAxis L) (XAxis L)) (Np.zeros 3)) None)
      WHITE_COLOR in
  collision_model <- at_line 43 (AddGeometryObject geom_obj0)
                       (addGeometryObject L collision_model geom_obj0) ;;
  (* link_B1 *)
  let r1 := addJoint L model base_joint_id JointModelRY joint1_placement_
                     "link_B1" in
  let joint1_id := snd r1 in
  model <- at_line 47 (AddJoint base_joint_id JointModelRY joint1_placement_
                               "link_B1" joint1_id) (fst r1) ;;
  model <- at_line 48
             (AppendBodyToJoint joint1_id inertia_link_B placement_center_link_B)
             (appendBodyToJoint L model joint1_id inertia_link_B
                                placement_center_link_B) ;;
  let geom_obj1 :=
    set_meshColor
      (mkGeometryObject "link_B1" joint1_id shape_link_B placement_shape_B None)
      RED_COLOR in
  collision_model <- at_line 51 (AddGeometryObject geom_obj1)
                       (addGeometryObject L collision_model geom_obj1) ;;
  (* link_A2 *)
  let r2 := addJoint L model joint1_id JointModelRY joint2_placement_
                     "link_A2" in
  let joint2_id := snd r2 in
  model <- at_line 55 (AddJoint joint1_id JointModelRY joint2_placement_
                               "link_A2" joint2_id) (fst r2) ;;
  model <- at_line 56
             (AppendBodyToJoint joint2_id inertia_link_A placement_center_link_A)
             (appendBodyToJoint L model joint2_id inertia_link_A
                                placement_center_link_A) ;;
  let geom_obj2 :=
    set_meshColor
      (mkGeometryObject "link_A2" joint2_id shape_link_A placement_shape_A None)
      WHITE_COLOR in
  collision_model <- at_line 59 (AddGeometryObject geom_obj2)
                       (addGeometryObject L collision_model geom_obj2) ;;
  (* link_B2 *)
  let r3 := addJoint L model joint2_id JointModelRY joint3_placement_
                     "link_B2" in
  let joint3_id := snd r3 in
  model <- at_line 63 (AddJoint joint2_id JointModelRY joint3_placement_
                               "link_B2" joint3_id) (fst r3) ;;
  model <- at_line 64
             (AppendBodyToJoint joint3_id inertia_link_B placement_center_link_B)
             (appendBodyToJoint L model joint3_id inertia_link_B
                                placement_center_link_B) ;;
  let geom_obj3 :=
    set_meshColor
      (mkGeometryObject "link_B2" joint3_id shape_link_B placement_shape_B None)
      RED_COLOR in
  collision_model <- at_line 67 (AddGeometryObject geom_obj3)
                       (addGeometryObject L collision_model geom_obj3) ;;
  ret (mkBuilt model collision_model joint1_id joint2_id joint3_id).

(** *** Lines 69-86: the viewer *)

Definition viewer_setup (b : Built) : M (Visualizer L * Np.array) :=
  let visual_model := collision_model b in
  viz <- at_line 70 (Viewer "GepettoVisualizer" [])
           (GepettoVisualizer L (model b) (collision_model b) visual_model) ;;
  viz <- at_line 71 (Viewer "initViewer" []) (initViewer L viz) ;;
  viz <- at_line 72 (Viewer "loadViewerModel" [])
           (loadViewerModel L viz "pinocchio") ;;
  window_id <- at_line 74 (Viewer "getWindowID" [])
                 (getWindowID L viz "python-pinocchio") ;;
  viz <- at_line 76 (Viewer "setBackgroundColor1" [WHITE_COLOR])
           (setBackgroundColor1 L viz window_id WHITE_COLOR) ;;
  viz <- at_line 77 (Viewer "setBackgroundColor2" [WHITE_COLOR])
           (setBackgroundColor2 L viz window_id WHITE_COLOR) ;;
  q0 <- at_line 85 (Call "neutral" []) (neutral L (model b)) ;;
  viz <- at_line 86 (Display q0) (display L viz q0) ;;
  ret (viz, q0).

(** *** Lines 88-112: data, the loop-closing constraint, solver set-up *)

Definition constraint1_joint1_placement : SE3 :=
  set_translation SE3_Identity (Np.mul_s (XAxis L) length_link_B).
Definition constraint1_joint2_placement : SE3 :=
  set_translation SE3_Identity
    (Np.div_s (Np.mul_s (Np.neg (XAxis L)) length_link_A) two).

Definition rho : F64.t := F64.lit 1 (-10).
Definition mu : F64.t := F64.lit 1 (-4).
Definition eps : F64.t := F64.lit 1 (-10).
Definition N : nat := 100.
Definition alpha : F64.t := F64.lit 1 0.

(** The variables the inverse-kinematics loop reads and rebinds. *)
Record IK : Type := mkIK {
  ik_q : Np.array;
  ik_y : Np.array;
  ik_data : Data L;
  ik_cdata : ContactData L;
  ik_kkt : Cholesky L
}.

Record Solver : Type := mkSolver {
  constraint_model : Contact;
  constraint_dim : nat;
  start : IK
}.

Definition ik_setup (b : Built) (q0 : Np.array) : M Solver :=
  data <- at_line 88 (Call "createData" []) (createData L (model b)) ;;
  data <- at_line 89 (Call "forwardKinematics" [q0])
            (forwardKinematics L (model b) data q0) ;;
  cm <- at_line 98
          (NewContactModel CONTACT_3D (joint3 b) constraint1_joint1_placement
                           base_joint_id constraint1_joint2_placement)
          (RigidContactModel_new L CONTACT_3D (joint3 b)
             constraint1_joint1_placement base_joint_id
             constraint1_joint2_placement) ;;
  constraint_data <- at_line 99 (Call "createData" [])
                       (contact_createData L cm) ;;
  constraint_dim <- at_line 100 (Call "size" []) (contact_size L cm) ;;
  let q := q0 in
  let y := Np.ones constraint_dim in
  let data := set_M L data (Np.mat_mul_s (Np.eye (nv L (model b))) rho) in
  kkt_constraint <- at_line 110 (Call "ContactCholeskyDecomposition" [])
                      (Cholesky_new L (model b) [cm]) ;;
  ret (mkSolver cm constraint_dim (mkIK q y data constraint_data kkt_constraint)).

(** *** Lines 113-133: the inverse-kinematics loop *)

(** Line 121: the convergence test on the two residual norms. *)
Definition converged (primal dual : F64.t) : bool :=
  F64.ltb primal eps && F64.ltb dual eps.

(** Line 133: [y -= alpha*(-dy + y)]. *)
Definition dual_update (y dy : Np.array) : Np.array :=
  Np.sub y (Np.s_mul alpha (Np.add (Np.neg dy) y)).

(** Lines 114-120: what a pass computes before it decides. *)
Record Measure : Type := mkMeasure {
  m_kkt : Cholesky L;
  m_data : Data L;
  m_cdata : ContactData L;
  constraint_value : Np.array;
  primal_feas : F64.t;
  dual_feas : F64.t
}.

Definition ik_measure (b : Built) (cm : Contact) (s : IK) : M Measure :=
  let q := ik_q s in
  let y := ik_y s in
  data <- at_line 114 (Call "computeJointJacobians" [q])
            (computeJointJacobians L (model b) (ik_data s) q) ;;
  let r := compute L (ik_kkt s) (model b) data [cm] [ik_cdata s] mu in
  kkt <- at_line 115 (KKTCompute mu) (fst (fst r)) ;;
  let data := snd (fst r) in
  let constraint_data := snd r in
  let constraint_value := translation (c1Mc2 L constraint_data) in
  J <- at_line 118 (Call "getFrameJacobian" [])
         (firstn 3 (getFrameJacobian L (model b) data (joint1_id cm)
                      (joint1_placement cm) (reference_frame cm))) ;;
  primal_feas <- at_line 119 (Call "norm" [constraint_value])
                   (norm_inf L constraint_value) ;;
  let residual := T_dot L J (Np.add constraint_value y) in
  dual_feas <- at_line 120 (Call "norm" [residual]) (norm_inf L residual) ;;
  ret (mkMeasure kkt data constraint_data constraint_value
                 primal_feas dual_feas).

(** Lines 124-133: the step taken when the test of line 121 fails. *)
Definition ik_step (b : Built) (constraint_dim : nat) (s : IK) (m : Measure)
  : M IK :=
  let q := ik_q s in
  let y := ik_y s in
  _ <- at_line 124
         (Print "constraint_value:" [norm L (constraint_value m)]) tt ;;
  let rhs := Np.concatenate
               (Np.sub (Np.neg (constraint_value m)) (Np.mul_s y mu))
               (Np.zeros (nv L (model b))) in
  let r := solve L (m_kkt m) rhs in
  dz <- at_line 127 (KKTSolve rhs r) r ;;
  let dy := Np.upto constraint_dim dz in
  let dq := Np.from constraint_dim dz in
  let step := Np.s_mul (F64.neg alpha) dq in
  q <- at_line 132 (Call "integrate" [q; step])
         (integrate L (model b) q step) ;;
  let y := dual_update y dy in
  ret (mkIK q y (m_data m) (m_cdata m) (m_kkt m)).

(** One pass through the loop body; [true] when it leaves by [break]. *)
Definition ik_body (b : Built) (cm : Contact) (constraint_dim : nat) (s : IK)
  : M (bool * IK) :=
  m <- ik_measure b cm s ;;
  if converged (primal_feas m) (dual_feas m) then
    _ <- at_line 122 (Print "Convergence achieved" []) tt ;;
    ret (true, mkIK (ik_q s) (ik_y s) (m_data m) (m_cdata m) (m_kkt m))
  else
    s' <- ik_step b constraint_dim s m ;;
    ret (false, s').

(** What the loop leaves: the variables, how many times the body ran and
    whether it left by [break]. *)
Record IKResult : Type := mkIKResult {
  ik_final : IK;
  iterations : nat;
  broke : bool
}.

(** [for k in range(n)] with [done] passes already made. *)
Fixpoint ik_loop (b : Built) (cm : Contact) (constraint_dim : nat)
    (n : nat) (done : nat) (s : IK) : M IKResult :=
  match n with
  | O => ret (mkIKResult s done false)
  | S n' =>
      r <- ik_body b cm constraint_dim s ;;
      if fst r then ret (mkIKResult (snd r) (S done) true)
      else ik_loop b cm constraint_dim n' (S done) (snd r)
  end.

(** *** Lines 136-150: wrapping the solution, simulation set-up *)

(** Line 136: [(q[:] + np.pi) % np.pi - np.pi]. *)
Definition wrap1 (x : F64.t) : F64.t :=
  F64.sub (F64.rem (F64.add x F64.pi) F64.pi) F64.pi.

Definition wrap (q : Np.array) : Np.array :=
  Np.sub_s (Np.rem_s (Np.add_s q F64.pi) F64.pi) F64.pi.

Definition dt : F64.t := F64.lit 5 (-3).
Definition T_sim : F64.t := F64.of_int 100000.
Definition mu_sim : F64.t := F64.lit 1 (-10).

(** The variables the simulation loop reads and rebinds. *)
Record Sim : Type := mkSim {
  sim_q : Np.array;
  sim_v : Np.array;
  sim_t : F64.t;
  sim_data : Data L;
  sim_cdata : ContactData L;
  sim_viz : Visualizer L
}.

Definition sim_setup (b : Built) (viz : Visualizer L) (sv : Solver)
    (r : IKResult) : M (Np.array * Contact * Sim) :=
  let q_sol := wrap (ik_q (ik_final r)) in
  viz <- at_line 137 (Display q_sol) (display L viz q_sol) ;;
  let q := q_sol in
  let v := Np.zeros (nv L (model b)) in
  let t := F64.of_int 0 in
  let cm := constraint_model sv in
  let cm := set_corrector cm (F64.of_int 10) (corrector_Kd cm) in
  let kd := F64.mul two (sqrt L (corrector_Kp cm)) in
  let cm := set_corrector cm (corrector_Kp cm) kd in
  data <- at_line 150 (Call "initContactDynamics" [])
            (initContactDynamics L (model b) (ik_data (ik_final r)) [cm]) ;;
  ret (q_sol, cm, mkSim q v t data (ik_cdata (ik_final r)) viz).

(** *** Lines 152-158: the simulation loop *)

Definition sim_guard (s : Sim) : bool := F64.leb (sim_t s) T_sim.

Definition sim_body (b : Built) (cm : Contact) (s : Sim) : M Sim :=
  let tau := Np.zeros (nv L (model b)) in
  let r := contactDynamics L (model b) (sim_data s) (sim_q s) (sim_v s) tau
             [cm] [sim_cdata s] mu_sim in
  a <- at_line 153 (Call "contactDynamics" [sim_q s; sim_v s; tau])
         (fst (fst r)) ;;
  let data := snd (fst r) in
  let constraint_data := snd r in
  let v := Np.add (sim_v s) (Np.mul_s a dt) in
  let step := Np.mul_s v dt in
  q <- at_line 155 (Call "integrate" [sim_q s; step])
         (integrate L (model b) (sim_q s) step) ;;
  viz <- at_line 156 (Display q) (display L (sim_viz s) q) ;;
  _ <- at_line 157 (Sleep dt) tt ;;
  let t := F64.add (sim_t s) dt in
  ret (mkSim q v t data constraint_data viz).

(** [while t <= T_sim]; [None] when [fuel] passes did not reach the
    exit, otherwise the final variables and the number of passes. *)
Fixpoint sim_loop (b : Built) (cm : Contact) (fuel : nat) (done : nat)
    (s : Sim) : M (option (Sim * nat)) :=
  if sim_guard s then
    match fuel with
    | O => ret None
    | S fuel' =>
        s' <- sim_body b cm s ;;
        sim_loop b cm fuel' (S done) s'
    end
  else ret (Some (s, done)).

(** *** The whole script *)

Record Run : Type := mkRun {
  run_built : Built;
  run_solver : Solver;
  run_ik : IKResult;
  q_sol : Np.array;
  run_contact : Contact;
  run_sim : option (Sim * nat)
}.

Definition script (fuel : nat) : M Run :=
  b <- build ;;
  vq <- viewer_setup b ;;
  let viz := fst vq in
  let q0 := snd vq in
  sv <- ik_setup b q0 ;;
  r <- ik_loop b (constraint_model sv) (constraint_dim sv) N 0 (start sv) ;;
  st <- sim_setup b viz sv r ;;
  let q_sol := fst (fst st) in
  let cm := snd (fst st) in
  final <- sim_loop b cm fuel 0 (snd st) ;;
  ret (mkRun b sv r q_sol cm final).

(** *** What each part of a run starts from *)

Definition built (env : Env) : Built := result build env.

Definition viewer (env : Env) : Visualizer L * Np.array :=
  result (viewer_setup (built env)) env.

Definition solver (env : Env) : Solver :=
  result (ik_setup (built env) (snd (viewer env))) env.

Definition ik_run (env : Env) : M IKResult :=
  ik_loop (built env) (constraint_model (solver env))
          (constraint_dim (solver env)) N 0 (start (solver env)).

Definition sim_start (env : Env) : M (Np.array * Contact * Sim) :=
  sim_setup (built env) (fst (viewer env)) (solver env)
            (result (ik_run env) env).

Definition sim_run (fuel : nat) (env : Env) : M (option (Sim * nat)) :=
  sim_loop (built env) (snd (fst (result (sim_start env) env))) fuel 0
           (snd (result (sim_start env) env)).

End Script.

Arguments model {L}.
Arguments collision_model {L}.
Arguments joint1 {L}.
Arguments joint2 {L}.
Arguments joint3 {L}.
Arguments ik_q {L}.
Arguments ik_y {L}.
Arguments ik_final {L}.
Arguments iterations {L}.
Arguments broke {L}.
Arguments constraint_model {L}.
Arguments constraint_dim {L}.
Arguments start {L}.
Arguments constraint_value {L}.
Arguments primal_feas {L}.
Arguments dual_feas {L}.
Arguments m_kkt {L}.
Arguments sim_q {L}.
Arguments sim_v {L}.
Arguments sim_t {L}.
Arguments sim_viz {L}.
Arguments run_built {L}.
Arguments run_solver {L}.
Arguments run_ik {L}.
Arguments q_sol {L}.
Arguments run_contact {L}.
Arguments run_sim {L}.

(* ================================================================= *)
(** ** Reading traces *)






(** Entries of one source line. *)
Definition of_line (ln : nat) (tr : list Entry) : list Entry :=
  filter (fun e => Nat.eqb (line e) ln) tr.

Definition is_AddJoint (e : Entry) : bool :=
  match event e with AddJoint _ _ _ _ _ => true | _ => false end.
Definition is_AddGeometryObject (e : Entry) : bool :=
  match event e with AddGeometryObject _ => true | _ => false end.
Definition is_NewContactModel (e : Entry) : bool :=
  match event e with NewContactModel _ _ _ _ _ => true | _ => false end.
Definition is_Print (e : Entry) : bool :=
  match event e with Print _ _ => true | _ => false end.
Definition is_KKTCompute (e : Entry) : bool :=
  match event e with KKTCompute _ => true | _ => false end.
Definition is_KKTSolve (e : Entry) : bool :=
  match event e with KKTSolve _ _ => true | _ => false end.

Definition events (tr : list Entry) : list Event := map event tr.

(* ================================================================= *)
(** ** Doubles as values *)

(** [Fin n] is a double when [n] is representable. *)
Definition is_double (x : F64.t) : bool :=
  match x with F64.Fin n => F64.representable n | _ => true end.

(** [-pi <= x < 0] *)
Definition in_wrap_range (x : F64.t) : bool :=
  F64.leb (F64.neg F64.pi) x && F64.ltb x F64.zero.

(** [x >= 0] *)
Definition nonneg (x : F64.t) : bool := F64.leb F64.zero x.

(** The clock of the simulation after [k] passes: [t = 0], then
    [t += dt] each pass. *)
Definition tick (t : F64.t) : F64.t := F64.add t dt.

Definition clock (k : nat) : F64.t := Nat.iter k tick (F64.of_int 0).

(** The integers behind the constants of the two loops. *)
Definition pi_n : Z := 884279719003555 * 2 ^ 1026.
Definition dt_n : Z := 5764607523034235 * 2 ^ 1014.
Definition T_n : Z := 100000 * 2 ^ 1074.
(** Half a unit in the last place of doubles below [2^17]. *)
Definition half_ulp : Z := 2 ^ 1037.

(** [y - dy] is computed without rounding. *)
Definition exact_diff (y dy : F64.t) : bool :=
  match y, dy with
  | F64.Fin a, F64.Fin b =>
      F64.representable a && F64.representable b && F64.representable (a - b)
  | _, _ => false
  end.

(** The geometry objects added along a trace. *)
Definition geometries (tr : list Entry) : list GeometryObject :=
  flat_map (fun e => match event e with
                     | AddGeometryObject g => [g]
                     | _ => []
                     end) tr.



(** What line 122 leaves in the trace. *)
Definition convergence_entry : Entry :=
  mkEntry 122 (Print "Convergence achieved" []).

(* ================================================================= *)
(** ** A small library to run the script on *)

(** The containers keep what is added, in order, joints numbered from 1
    after the universe joint 0; the constraint translation is the
    constant [cv] and the solver returns its right-hand side. *)

Module Toy.

Record ToyModel : Type := mkToyModel {
  joints : list (JointIndex * JointModel * SE3 * string);
  bodies : list (JointIndex * Inertia * SE3)
}.

Definition abs (x : F64.t) : F64.t :=
  if F64.is_neg x then F64.neg x else x.

Definition max_abs (a : Np.array) : F64.t :=
  fold_right (fun x m => if F64.ltb m (abs x) then abs x else m) F64.zero a.

Definition lib (cv : Np.array) : Library :=
  {| Model := ToyModel;
     GeometryModel := list GeometryObject;
     Data := unit;
     ContactData := unit;
     Cholesky := unit;
     Visualizer := list Np.array;
     Frame := unit;
     XAxis := [F64.one; F64.zero; F64.zero];
     ZAxis := [F64.zero; F64.zero; F64.one];
     Model_new := mkToyModel [] [];
     addJoint := fun m parent jm pl name =>
       (mkToyModel (joints m ++ [(parent, jm, pl, name)]) (bodies m),
        S (List.length (joints m)));
     appendBodyToJoint := fun m j i pl =>
       mkToyModel (joints m) (bodies m ++ [(j, i, pl)]);
     nv := fun m => List.length (joints m);
     neutral := fun m => Np.zeros (List.length (joints m));
     createData := fun _ => tt;
     GeometryModel_new := [];
     addGeometryObject := fun gm g => (gm ++ [g]);
     GepettoVisualizer := fun _ _ _ => [];
     initViewer := fun v => v;
     loadViewerModel := fun v _ => v;
     getWindowID := fun _ _ => 0%nat;
     setBackgroundColor1 := fun v _ _ => v;
     setBackgroundColor2 := fun v _ _ => v;
     display := fun v q => (v ++ [q]);
     default_frame := tt;
     default_Kp := F64.zero;
     default_Kd := F64.zero;
     contact_createData := fun _ => tt;
     contact_size := fun _ => 3%nat;
     c1Mc2 := fun _ => mkSE3 RotIdentity cv;
     set_M := fun d _ => d;
     forwardKinematics := fun _ d _ => d;
     computeJointJacobians := fun _ d _ => d;
     getFrameJacobian := fun _ _ _ _ _ => [];
     integrate := fun _ q dq => Np.add q dq;
     Cholesky_new := fun _ _ => tt;
     compute := fun k _ d _ _ _ => (k, d, tt);
     solve := fun _ rhs => rhs;
     initContactDynamics := fun _ d _ => d;
     contactDynamics := fun m d _ _ _ _ _ _ =>
       (Np.zeros (List.length (joints m)), d, tt);
     norm_inf := max_abs;
     norm := max_abs;
     T_dot := fun _ _ => [];
     sqrt := fun x => x |}.

(** A mechanism whose constraint already holds, and one whose
    constraint never does. *)
Definition closed : Library := lib (Np.zeros 3).
Definition open : Library := lib [F64.one; F64.zero; F64.zero].

Definition env0 : Env := mkEnv [] [].

End Toy.

(* ================================================================= *)
(** ** More readings of runs and values *)


(** [-2^-52 <= x <= 0]: zero, or negative by at most half a unit in the
    last place of [np.pi]. *)
Definition hair_below_zero (x : F64.t) : bool :=
  match x with
  | F64.Fin n => (- 2 ^ 1022 <=? n) && (n <=? 0)
  | _ => false
  end.

(** [|x| <= 4], for a finite double. *)
Definition at_most_four (x : F64.t) : bool :=
  match x with
  | F64.Fin n => F64.representable n && (Z.abs n <=? 2 ^ 1076)
  | _ => false
  end.

(** Two finite doubles with [dy/2 <= y <= 2*dy]. *)
Definition within_factor_two (y dy : F64.t) : bool :=
  match y, dy with
  | F64.Fin a, F64.Fin b =>
      F64.representable a && F64.representable b &&
      (b <=? 2 * a) && (a <=? 2 * b)
  | _, _ => false
  end.

(** [w] is [x] less a whole multiple of [np.pi], to within [3 * 2^-52]. *)
Definition congruent_mod_pi (x w : F64.t) : Prop :=
  match x, w with
  | F64.Fin n, F64.Fin r =>
      exists k : Z, 2 * Z.abs (r - (n - k * pi_n)) <= 3 * 2 ^ 1023
  | _, _ => False
  end.

(** The small library with a norm that is never a number. *)
Definition deaf : Library :=
  {| Model := Toy.ToyModel;
     GeometryModel := list GeometryObject;
     Data := unit;
     ContactData := unit;
     Cholesky := unit;
     Visualizer := list Np.array;
     Frame := unit;
     XAxis := [F64.one; F64.zero; F64.zero];
     ZAxis := [F64.zero; F64.zero; F64.one];
     Model_new := Toy.mkToyModel [] [];
     addJoint := fun m parent jm pl name =>
       (Toy.mkToyModel (Toy.joints m ++ [(parent, jm, pl, name)]) (Toy.bodies m),
        S (List.length (Toy.joints m)));
     appendBodyToJoint := fun m j i pl =>
       Toy.mkToyModel (Toy.joints m) (Toy.bodies m ++ [(j, i, pl)]);
     nv := fun m => List.length (Toy.joints m);
     neutral := fun m => Np.zeros (List.length (Toy.joints m));
     createData := fun _ => tt;
     GeometryModel_new := [];
     addGeometryObject := fun gm g => (gm ++ [g]);
     GepettoVisualizer := fun _ _ _ => [];
     initViewer := fun v => v;
     loadViewerModel := fun v _ => v;
     getWindowID := fun _ _ => 0%nat;
     setBackgroundColor1 := fun v _ _ => v;
     setBackgroundColor2 := fun v _ _ => v;
     display := fun v q => (v ++ [q]);
     default_frame := tt;
     default_Kp := F64.zero;
     default_Kd := F64.zero;
     contact_createData := fun _ => tt;
     contact_size := fun _ => 3%nat;
     c1Mc2 := fun _ => mkSE3 RotIdentity (Np.zeros 3);
     set_M := fun d _ => d;
     forwardKinematics := fun _ d _ => d;
     computeJointJacobians := fun _ d _ => d;
     getFrameJacobian := fun _ _ _ _ _ => [];
     integrate := fun _ q dq => Np.add q dq;
     Cholesky_new := fun _ _ => tt;
     compute := fun k _ d _ _ _ => (k, d, tt);
     solve := fun _ rhs => rhs;
     initContactDynamics := fun _ d _ => d;
     contactDynamics := fun m d _ _ _ _ _ _ =>
       (Np.zeros (List.length (Toy.joints m)), d, tt);
     norm_inf := fun _ => F64.NaN;
     norm := Toy.max_abs;
     T_dot := fun _ _ => [];
     sqrt := fun x => x |}.

(** *** What the containers of the library hold *)

(** A joint as [addJoint] receives it: parent, joint model, placement
    and name. *)
Definition Joint : Type := (JointIndex * JointModel * SE3 * string)%type.

(** A body as [appendBodyToJoint] receives it: joint, inertia and
    placement. *)
Definition Body : Type := (JointIndex * Inertia * SE3)%type.

(** The library's own code is not part of the example, so what its two
    containers do with what they are given is a contract on the
    interface, stated through three views: [joints_of] lists the joints
    of a model after the universe joint 0, in index order, [bodies_of]
    the bodies appended to its joints and [objects_of] the geometry
    objects of a geometry model.  A new model has the universe joint
    only and no body; [addJoint] appends the joint, returns its index
    (the number of joints before the call, the universe included) and
    adds no body; [appendBodyToJoint] appends the body and adds no
    joint; a new geometry model is empty and [addGeometryObject] appends
    the object. *)
Record Containers (L : Library) (joints_of : Model L -> list Joint)
    (bodies_of : Model L -> list Body)
    (objects_of : GeometryModel L -> list GeometryObject) : Prop := {
  joints_new : joints_of (Model_new L) = [];
  joints_add : forall m parent jm pl name,
    joints_of (fst (addJoint L m parent jm pl name)) =
    joints_of m ++ [(parent, jm, pl, name)];
  index_add : forall m parent jm pl name,
    snd (addJoint L m parent jm pl name) = S (List.length (joints_of m));
  joints_body : forall m j i pl,
    joints_of (appendBodyToJoint L m j i pl) = joints_of m;
  bodies_new : bodies_of (Model_new L) = [];
  bodies_joint : forall m parent jm pl name,
    bodies_of (fst (addJoint L m parent jm pl name)) = bodies_of m;
  bodies_add : forall m j i pl,
    bodies_of (appendBodyToJoint L m j i pl) = bodies_of m ++ [(j, i, pl)];
  objects_new : objects_of (GeometryModel_new L) = [];
  objects_add : forall gm g,
    objects_of (addGeometryObject L gm g) = objects_of gm ++ [g]
}.

(** *** Cross-check against the Standard Library's IEEE 754 model *)

Definition samples : list F64.t :=
  [F64.lit 5 (-3); F64.neg F64.pi; F64.lit 1 (-320); F64.Inf true; F64.NaN].

Definition same (x y : F64.t) : bool :=
  match x, y with
  | F64.NaN, F64.NaN => true
  | F64.Inf s, F64.Inf s' => Bool.eqb s s'
  | F64.Fin a, F64.Fin b => a =? b
  | _, _ => false
  end.

Definition agree (f : F64.t -> F64.t -> F64.t)
    (g : spec_float -> spec_float -> spec_float) : bool :=
  forallb (fun x => forallb (fun y =>
    same (f x y) (F64.of_spec (g (F64.to_spec x) (F64.to_spec y))))
    samples) samples.

(* ================================================================= *)
(** ** Facts about the binary64 arithmetic *)

Module F64Facts.
Import F64.

Lemma rne_div_exact c b : 0 < b -> rne_div (c * b) b = c.
Proof.
  intros Hb. unfold rne_div.
  rewrite Z.div_mul by lia. rewrite Z.mod_mul by lia.
  destruct (Z.compare_spec (2 * 0) b); [lia | reflexivity | lia].
Qed.

Lemma rne_div_cases a b :
  0 < b -> rne_div a b = a / b \/ (rne_div a b = a / b + 1 /\ b <= 2 * (a mod b)).
Proof.
  intros Hb. unfold rne_div.
  destruct (Z.compare_spec (2 * (a mod b)) b) as [E|E|E].
  - destruct (Z.even (a / b)); [left; reflexivity | right; split; [reflexivity | lia]].
  - left; reflexivity.
  - right; split; [reflexivity | lia].
Qed.

Lemma rne_div_err a b : 0 < b -> - b <= 2 * (rne_div a b * b - a) <= b.
Proof.
  intros Hb. unfold rne_div.
  pose proof (Z.div_mod a b ltac:(lia)) as E.
  pose proof (Z.mod_pos_bound a b Hb) as B.
  destruct (Z.compare_spec (2 * (a mod b)) b) as [C|C|C];
    [destruct (Z.even (a / b))| |]; nia.
Qed.

Lemma rne_div_ge a b c : 0 < b -> c * b <= a -> c <= rne_div a b.
Proof.
  intros Hb H.
  assert (c <= a / b) by (apply Z.div_le_lower_bound; lia).
  destruct (rne_div_cases a b Hb) as [-> | [-> _]]; lia.
Qed.

Lemma rne_div_le a b c : 0 < b -> a <= c * b -> rne_div a b <= c.
Proof.
  intros Hb H.
  pose proof (Z.div_mod a b ltac:(lia)) as E.
  pose proof (Z.mod_pos_bound a b Hb) as B.
  destruct (rne_div_cases a b Hb) as [-> | [-> Hr]]; nia.
Qed.

Lemma pow2_divide j k : 0 <= j <= k -> (2 ^ j | 2 ^ k).
Proof.
  intros H. exists (2 ^ (k - j)).
  rewrite <- Z.pow_add_r by lia. f_equal; lia.
Qed.

Lemma ulp_exp_1 a : ulp_exp a 1 = Z.max 0 (Z.log2 (Z.abs a) - 52).
Proof. unfold ulp_exp. now rewrite Z.div_1_r. Qed.

Lemma ulp_exp_nonneg a b : 0 <= ulp_exp a b.
Proof. unfold ulp_exp. lia. Qed.

Lemma round_1 a :
  round a 1 = rne_div a (2 ^ ulp_exp a 1) * 2 ^ ulp_exp a 1.
Proof. unfold round. cbv zeta. now rewrite Z.mul_1_l. Qed.

(** The last place of [a] is at most [j] when [|a| < 2^(53+j)]. *)
Lemma ulp_exp_le a j : 0 <= j -> Z.abs a < 2 ^ (53 + j) -> ulp_exp a 1 <= j.
Proof.
  intros Hj Ha. rewrite ulp_exp_1.
  destruct (Z.eq_dec (Z.abs a) 0) as [E|E].
  - rewrite E. cbn. lia.
  - assert (Z.log2 (Z.abs a) < 53 + j) by (apply Z.log2_lt_pow2; lia). lia.
Qed.

Lemma ulp_exp_ge a j : 0 <= j -> 2 ^ (52 + j) <= Z.abs a -> j <= ulp_exp a 1.
Proof.
  intros Hj Ha. rewrite ulp_exp_1.
  assert (0 < Z.abs a).
  { pose proof (Z.pow_pos_nonneg 2 (52 + j)). lia. }
  assert (52 + j <= Z.log2 (Z.abs a)) by (apply Z.log2_le_pow2; lia). lia.
Qed.

(** The last place of a nonzero [a] does not exceed [a] itself. *)
Lemma ulp_le_abs a : a <> 0 -> 2 ^ ulp_exp a 1 <= Z.abs a.
Proof.
  intros Ha. rewrite ulp_exp_1.
  assert (Hp : 0 < Z.abs a) by lia.
  destruct (Z.max_spec 0 (Z.log2 (Z.abs a) - 52)) as [[_ ->]|[_ ->]].
  - pose proof (Z.log2_spec _ Hp) as [Hl _].
    pose proof (Z.log2_nonneg (Z.abs a)).
    transitivity (2 ^ Z.log2 (Z.abs a)); [|exact Hl].
    apply Z.pow_le_mono_r; lia.
  - cbn. lia.
Qed.

Lemma round_err a :
  - 2 ^ ulp_exp a 1 <= 2 * (round a 1 - a) <= 2 ^ ulp_exp a 1.
Proof.
  rewrite round_1. apply rne_div_err.
  apply Z.pow_pos_nonneg; [lia | apply ulp_exp_nonneg].
Qed.

Lemma round_exact_k a : (2 ^ ulp_exp a 1 | a) -> round a 1 = a.
Proof.
  intros [c Hc]. rewrite round_1.
  rewrite Hc at 1. rewrite rne_div_exact; [lia|].
  apply Z.pow_pos_nonneg; [lia | apply ulp_exp_nonneg].
Qed.

(** Multiples of [2^j] below [2^(53+j)] are not rounded. *)
Lemma round_exact a j :
  0 <= j -> (2 ^ j | a) -> Z.abs a < 2 ^ (53 + j) -> round a 1 = a.
Proof.
  intros Hj Hd Ha. apply round_exact_k.
  apply Z.divide_trans with (2 ^ j); [|exact Hd].
  apply pow2_divide. split; [apply ulp_exp_nonneg | now apply ulp_exp_le].
Qed.

Lemma round_divide a : (2 ^ ulp_exp a 1 | round a 1).
Proof. rewrite round_1. apply Z.divide_factor_r. Qed.

(** A double of magnitude at least [2^(52+j)] is a multiple of [2^j]. *)
Lemma fixed_divide n j :
  0 <= j -> round n 1 = n -> 2 ^ (52 + j) <= Z.abs n -> (2 ^ j | n).
Proof.
  intros Hj Hn Ha.
  apply Z.divide_trans with (2 ^ ulp_exp n 1).
  - apply pow2_divide. split; [lia | now apply ulp_exp_ge].
  - rewrite <- Hn at 2. apply round_divide.
Qed.

(** Rounding never crosses a multiple of the last place. *)
Lemma round_ge a c : (2 ^ ulp_exp a 1 | c) -> c <= a -> c <= round a 1.
Proof.
  intros [c' ->] H. rewrite round_1.
  assert (0 < 2 ^ ulp_exp a 1)
    by (apply Z.pow_pos_nonneg; [lia | apply ulp_exp_nonneg]).
  apply Z.mul_le_mono_nonneg_r; [lia|]. now apply rne_div_ge.
Qed.

Lemma round_le a c : (2 ^ ulp_exp a 1 | c) -> a <= c -> round a 1 <= c.
Proof.
  intros [c' ->] H. rewrite round_1.
  assert (0 < 2 ^ ulp_exp a 1)
    by (apply Z.pow_pos_nonneg; [lia | apply ulp_exp_nonneg]).
  apply Z.mul_le_mono_nonneg_r; [lia|]. now apply rne_div_le.
Qed.

Lemma round_nonneg a : 0 <= a -> 0 <= round a 1.
Proof. apply round_ge. apply Z.divide_0_r. Qed.

Lemma round_neg a : a < 0 -> round a 1 < 0.
Proof.
  intros Ha.
  pose proof (ulp_le_abs a ltac:(lia)).
  assert (0 < 2 ^ ulp_exp a 1)
    by (apply Z.pow_pos_nonneg; [lia | apply ulp_exp_nonneg]).
  assert (round a 1 <= - 2 ^ ulp_exp a 1); [|lia].
  apply round_le; [|lia].
  apply Z.divide_opp_r, Z.divide_refl.
Qed.

Lemma round_pos a : 0 < a -> 0 < round a 1.
Proof.
  intros Ha.
  pose proof (ulp_le_abs a ltac:(lia)).
  assert (0 < 2 ^ ulp_exp a 1)
    by (apply Z.pow_pos_nonneg; [lia | apply ulp_exp_nonneg]).
  assert (2 ^ ulp_exp a 1 <= round a 1); [|lia].
  apply round_ge; [|lia]. apply Z.divide_refl.
Qed.

Lemma representable_spec n :
  representable n = true <-> round n 1 = n /\ Z.abs n < huge.
Proof.
  unfold representable. rewrite andb_true_iff, Z.eqb_eq, Z.ltb_lt. tauto.
Qed.

Lemma mk_fin a : Z.abs (round a 1) < huge -> mk a 1 = Fin (round a 1).
Proof.
  intros H. unfold mk. cbv zeta.
  apply Z.ltb_lt in H. now rewrite H.
Qed.

Lemma mk_exact a : representable a = true -> mk a 1 = Fin a.
Proof.
  intros [E H]%representable_spec. rewrite mk_fin; rewrite E; auto.
Qed.

(** The largest double is [huge - 2^(2098-53)]. *)
Lemma representable_max n :
  representable n = true -> Z.abs n <= huge - 2 ^ 2045.
Proof.
  intros [E H]%representable_spec.
  destruct (Z_lt_le_dec (Z.abs n) (2 ^ 2097)) as [Hs|Hb].
  - unfold huge, emin. assert (2 ^ 2097 <= 2 ^ (1024 + 1074) - 2 ^ 2045)
      by (vm_compute; discriminate). lia.
  - destruct (fixed_divide n 2045 ltac:(lia) E Hb) as [c Hc].
    unfold huge, emin in *.
    change (2 ^ (1024 + 1074)) with (2 ^ 53 * 2 ^ 2045) in *.
    assert (0 < 2 ^ 2045) by (apply Z.pow_pos_nonneg; lia).
    assert (Z.abs c < 2 ^ 53) by nia.
    assert (Z.abs c <= 2 ^ 53 - 1) by lia. nia.
Qed.

Lemma pi_eq : pi = Fin pi_n.
Proof. reflexivity. Qed.

Lemma pi_n_bounds : 2 ^ (52 + 1023) <= pi_n < 2 ^ (53 + 1023).
Proof. split; vm_compute; [discriminate | reflexivity]. Qed.

Lemma pi_n_divide : (2 ^ 1023 | pi_n).
Proof.
  apply Z.divide_trans with (2 ^ 1026); [|apply Z.divide_factor_r].
  apply pow2_divide; lia.
Qed.

Lemma pi_n_small : pi_n < 2 ^ 2044.
Proof. vm_compute; reflexivity. Qed.

Lemma huge_eq : huge = 2 ^ (53 + 2045).
Proof. reflexivity. Qed.

Lemma pow2_2045 : 2 ^ 2045 = 2 * 2 ^ 2044 /\ 2 ^ (53 + 2045) = 2 ^ 54 * 2 ^ 2044 /\ 0 < 2 ^ 2044.
Proof. repeat split. Qed.

(** [q + np.pi] does not overflow. *)
Lemma add_pi_fin n :
  representable n = true ->
  add (Fin n) pi = Fin (round (n + pi_n) 1).
Proof.
  intros Hn. rewrite pi_eq. unfold add. apply mk_fin.
  pose proof (representable_max n Hn) as Hmax.
  pose proof pi_n_bounds as [HP1 HP2]. pose proof pi_n_small as HP3.
  rewrite huge_eq in *.
  assert (Hk : 2 ^ ulp_exp (n + pi_n) 1 <= 2 ^ 2045).
  { apply Z.pow_le_mono_r; [lia|]. apply ulp_exp_le; [lia|].
    pose proof pow2_2045 as (E1 & E2 & E3).
    set (P := pi_n) in *. clearbody P.
    rewrite E2 in *. rewrite E1 in *. set (h := 2 ^ 2044) in *. clearbody h. lia. }
  pose proof (round_err (n + pi_n)).
  pose proof pow2_2045 as (E1 & E2 & E3).
  set (P := pi_n) in *. clearbody P.
  set (u := 2 ^ ulp_exp (n + P) 1) in *. clearbody u.
  set (r := round (n + P) 1) in *. clearbody r.
  rewrite E2 in *. rewrite E1 in *. set (h := 2 ^ 2044) in *. clearbody h. lia.
Qed.

Lemma is_zero_fin n : is_zero (Fin n) = (n =? 0).
Proof. now destruct n. Qed.

Lemma neg_pi_representable : representable (- pi_n) = true.
Proof. vm_compute. reflexivity. Qed.

(** [x % np.pi] by cases on the truncated remainder. *)
Lemma rem_pi x :
  rem (Fin x) pi =
  let m := Z.rem x pi_n in
  if m =? 0 then Fin 0 else if m <? 0 then add (Fin m) pi else Fin m.
Proof.
  rewrite pi_eq. unfold rem, fmod.
  assert (Hz : (pi_n =? 0) = false) by (vm_compute; reflexivity).
  assert (Hn : (pi_n <? 0) = false) by (vm_compute; reflexivity).
  rewrite Hz. rewrite !is_zero_fin, Hz. cbv zeta.
  unfold is_neg. rewrite Hn.
  destruct (Z.eqb_spec (Z.rem x pi_n) 0) as [E|E]; [now rewrite E|].
  destruct (Z.rem x pi_n <? 0); reflexivity.
Qed.

(** A negative sum [q + np.pi] lies on the grid of [np.pi]. *)
Lemma add_pi_grid n :
  round n 1 = n -> round (n + pi_n) 1 < 0 -> (2 ^ 1023 | round (n + pi_n) 1).
Proof.
  intros En Hx.
  pose proof pi_n_bounds as [HP1 HP2]. pose proof pi_n_divide as HPd.
  assert (Hs : n + pi_n < 0).
  { destruct (Z_lt_le_dec (n + pi_n) 0) as [H|H]; [exact H|].
    pose proof (round_nonneg _ H). lia. }
  assert (Hd : (2 ^ 1023 | n + pi_n)).
  { apply Z.divide_add_r; [|exact HPd].
    apply fixed_divide; [lia | exact En | lia]. }
  destruct (Z_le_gt_dec (ulp_exp (n + pi_n) 1) 1023) as [Hk|Hk].
  - rewrite round_exact_k; [exact Hd|].
    apply Z.divide_trans with (2 ^ 1023); [|exact Hd].
    apply pow2_divide. split; [apply ulp_exp_nonneg | exact Hk].
  - apply Z.divide_trans with (2 ^ ulp_exp (n + pi_n) 1);
      [|apply round_divide].
    apply pow2_divide. lia.
Qed.

(** Line 136 on one finite entry: the result is a double in [[-pi, 0)]. *)
Lemma wrap1_fin n :
  representable n = true ->
  exists r, sub (rem (add (Fin n) pi) pi) pi = Fin r /\ - pi_n <= r < 0.
Proof.
  intros Hn. rewrite (add_pi_fin n Hn), rem_pi. cbv zeta.
  apply representable_spec in Hn as [En _].
  pose proof pi_n_bounds as [HP1 HP2]. pose proof pi_n_divide as HPd.
  pose proof pi_n_small as HP3.
  assert (HP0 : 0 < pi_n).
  { pose proof (Z.pow_pos_nonneg 2 (52 + 1023)). lia. }
  assert (Hhuge : 2 ^ (53 + 1023) < huge) by (vm_compute; reflexivity).
  set (x := round (n + pi_n) 1).
  assert (Hsub : forall a, sub (Fin a) pi = mk (a - pi_n) 1).
  { intros a. rewrite pi_eq. reflexivity. }
  destruct (Z.eqb_spec (Z.rem x pi_n) 0) as [E0|E0].
  - (* the remainder is zero *)
    exists (- pi_n). split; [|lia].
    rewrite Hsub. apply (mk_exact _ neg_pi_representable).
  - destruct (Z.ltb_spec (Z.rem x pi_n) 0) as [Hm|Hm].
    + (* negative remainder: one [pi] is added, exactly *)
      assert (Hx : x < 0).
      { destruct (Z_lt_le_dec x 0) as [H|H]; [exact H|].
        pose proof (Z.rem_bound_pos x pi_n H HP0). lia. }
      pose proof (Z.rem_bound_pos_neg x pi_n HP0 ltac:(lia)) as Hb.
      assert (Hd : (2 ^ 1023 | Z.rem x pi_n)).
      { replace (Z.rem x pi_n) with (x - pi_n * (x ÷ pi_n))
          by (pose proof (Z.quot_rem' x pi_n); lia).
        apply Z.divide_sub_r; [now apply add_pi_grid|].
        now apply Z.divide_mul_l. }
      set (m := Z.rem x pi_n) in *.
      assert (Ea : add (Fin m) pi = Fin (m + pi_n)).
      { rewrite pi_eq. unfold add.
        assert (E : round (m + pi_n) 1 = m + pi_n).
        { apply round_exact with 1023; [lia | now apply Z.divide_add_r | lia]. }
        rewrite mk_fin; rewrite E; [reflexivity | lia]. }
      rewrite Ea, Hsub.
      replace (m + pi_n - pi_n) with m by lia.
      exists m. split; [|lia].
      assert (E : round m 1 = m).
      { apply round_exact with 1023; [lia | exact Hd | lia]. }
      rewrite mk_fin; rewrite E; [reflexivity | lia].
    + (* positive remainder *)
      assert (Hx : 0 <= x).
      { destruct (Z_lt_le_dec x 0) as [H|H]; [|exact H].
        pose proof (Z.rem_bound_pos_neg x pi_n HP0 ltac:(lia)). lia. }
      pose proof (Z.rem_bound_pos x pi_n Hx HP0) as Hb.
      set (m := Z.rem x pi_n) in *.
      rewrite Hsub.
      assert (Hlt : round (m - pi_n) 1 < 0) by (apply round_neg; lia).
      assert (Hge : - pi_n <= round (m - pi_n) 1).
      { apply round_ge; [|lia].
        apply Z.divide_opp_r.
        apply Z.divide_trans with (2 ^ 1023); [|exact HPd].
        apply pow2_divide. split; [apply ulp_exp_nonneg|].
        apply ulp_exp_le; lia. }
      exists (round (m - pi_n) 1). split; [|lia].
      apply mk_fin. lia.
Qed.

(** *** The clock of the simulation loop *)

Lemma dt_eq : dt = Fin dt_n.
Proof. vm_compute. reflexivity. Qed.

Lemma T_sim_eq : T_sim = Fin T_n.
Proof. vm_compute. reflexivity. Qed.

Lemma of_int_0 : of_int 0 = Fin 0.
Proof. reflexivity. Qed.

Lemma clock_S k : clock (S k) = add (clock k) dt.
Proof. reflexivity. Qed.

Lemma clock_range_aux :
  0 < half_ulp < dt_n /\ 21000001 * (dt_n + half_ulp) < 2 ^ (53 + 1038) /\
  2 ^ (53 + 1038) < huge /\ 2 ^ 1038 = 2 * half_ulp.
Proof. repeat split. Qed.

(** Each [t += dt] is off by at most half a unit in the last place of
    the largest value [t] takes. *)
Lemma clock_bounds (k : nat) :
  Z.of_nat k <= 21000000 ->
  exists tau, clock k = Fin tau /\
    Z.of_nat k * (dt_n - half_ulp) <= tau <= Z.of_nat k * (dt_n + half_ulp).
Proof.
  induction k as [|k IH]; intros Hk.
  - exists 0. split; [reflexivity | lia].
  - destruct IH as (tau & Ht & Hb); [lia|].
    rewrite clock_S, Ht, dt_eq. unfold add.
    pose proof clock_range_aux as (HE & HB & HH & H2).
    rewrite Nat2Z.inj_succ in *. rewrite !Z.mul_succ_l.
    set (D := dt_n) in *. set (E := half_ulp) in *. clearbody D E.
    assert (Hlo : 0 <= Z.of_nat k * (D - E))
      by (apply Z.mul_nonneg_nonneg; lia).
    assert (Hhi : Z.of_nat k * (D + E) <= 20999999 * (D + E))
      by (apply Z.mul_le_mono_nonneg_r; lia).
    set (lo := Z.of_nat k * (D - E)) in *.
    set (hi := Z.of_nat k * (D + E)) in *. clearbody lo hi.
    assert (Hu : 2 ^ ulp_exp (tau + D) 1 <= 2 * E).
    { rewrite <- H2. apply Z.pow_le_mono_r; [lia|].
      apply ulp_exp_le; [lia|].
      set (B := 2 ^ (53 + 1038)) in *. clearbody B. lia. }
    set (B := 2 ^ (53 + 1038)) in *. clearbody B.
    pose proof (round_err (tau + D)) as He.
    exists (round (tau + D) 1). split.
    + apply mk_fin. lia.
    + lia.
Qed.

Lemma clock_exit_aux :
  19999970 * (dt_n + half_ulp) <= T_n /\ T_n < 20000030 * (dt_n - half_ulp).
Proof. split; vm_compute; [discriminate | reflexivity]. Qed.

Lemma clock_before k : Z.of_nat k <= 19999970 -> leb (clock k) T_sim = true.
Proof.
  intros Hk. destruct (clock_bounds k ltac:(lia)) as (tau & -> & Hb).
  rewrite T_sim_eq. unfold leb. apply Z.leb_le.
  pose proof clock_exit_aux as [H1 _].
  pose proof clock_range_aux as (HE & _).
  assert (Z.of_nat k * (dt_n + half_ulp) <= 19999970 * (dt_n + half_ulp))
    by (apply Z.mul_le_mono_nonneg_r; lia).
  lia.
Qed.

Lemma clock_after k : 20000030 <= Z.of_nat k <= 21000000 -> leb (clock k) T_sim = false.
Proof.
  intros Hk. destruct (clock_bounds k ltac:(lia)) as (tau & -> & Hb).
  rewrite T_sim_eq. unfold leb. apply Z.leb_gt.
  pose proof clock_exit_aux as [_ H1].
  pose proof clock_range_aux as (HE & _).
  assert (20000030 * (dt_n - half_ulp) <= Z.of_nat k * (dt_n - half_ulp))
    by (apply Z.mul_le_mono_nonneg_r; lia).
  lia.
Qed.

(** The first index at which a test fails, given that it fails somewhere. *)
Lemma first_failure (P : nat -> bool) (K : nat) :
  P K = false ->
  exists n, (n <= K)%nat /\ P n = false /\ forall j, (j < n)%nat -> P j = true.
Proof.
  induction K as [K IH] using lt_wf_ind. intros HK.
  destruct (forallb P (seq 0 K)) eqn:E.
  - exists K. split; [lia|]. split; [exact HK|].
    intros j Hj. rewrite forallb_forall in E. apply E, in_seq. lia.
  - assert (exists j, (j < K)%nat /\ P j = false) as (j & Hj & Pj).
    { destruct (forallb_forall P (seq 0 K)) as [_ H].
      destruct (existsb (fun j => negb (P j)) (seq 0 K)) eqn:X.
      - apply existsb_exists in X as (j & Hin & Hn). exists j.
        apply in_seq in Hin. split; [lia|]. now destruct (P j).
      - rewrite H in E; [discriminate|]. intros x Hx.
        destruct (P x) eqn:Px; [reflexivity|].
        assert (existsb (fun j => negb (P j)) (seq 0 K) = true); [|congruence].
        apply existsb_exists. exists x. now rewrite Px. }
    destruct (IH j Hj Pj) as (n & Hn & Pn & Hmin).
    exists n. split; [lia|]. now split.
Qed.

(** The guard [t <= T_sim] first fails after about [T_sim / dt] passes. *)
Lemma clock_exit :
  exists n, 19999971 <= Z.of_nat n <= 20000030 /\
    leb (clock n) T_sim = false /\
    forall j, (j < n)%nat -> leb (clock j) T_sim = true.
Proof.
  destruct (first_failure (fun k => leb (clock k) T_sim) (Z.to_nat 20000030))
    as (n & Hn & Pn & Hmin).
  { apply clock_after. lia. }
  exists n. split; [|now split].
  split; [|lia].
  destruct (Z_lt_le_dec (Z.of_nat n) 19999971) as [H|H]; [|exact H].
  rewrite clock_before in Pn by lia. discriminate.
Qed.

(** *** Multiplying by [1.] *)

Lemma rne_div_scale a b c :
  0 < b -> 0 < c -> rne_div (c * a) (c * b) = rne_div a b.
Proof.
  intros Hb Hc. unfold rne_div.
  rewrite Z.div_mul_cancel_l by lia.
  rewrite Z.mul_mod_distr_l by lia.
  replace (2 * (c * (a mod b))) with (c * (2 * (a mod b))) by lia.
  rewrite <- (Zmult_compare_compat_l (2 * (a mod b)) b c) by lia.
  reflexivity.
Qed.

Lemma round_scale a c : 0 < c -> round (c * a) c = round a 1.
Proof.
  intros Hc. unfold round, ulp_exp.
  rewrite Z.abs_mul, (Z.abs_eq c) by lia.
  rewrite (Z.mul_comm c (Z.abs a)), Z.div_mul by lia.
  rewrite Z.div_1_r. cbv zeta.
  set (k := Z.max 0 (Z.log2 (Z.abs a) - 52)).
  rewrite Z.mul_1_l.
  rewrite rne_div_scale; [reflexivity | | exact Hc].
  apply Z.pow_pos_nonneg; lia.
Qed.

Lemma alpha_eq : alpha = Fin (2 ^ emin).
Proof. reflexivity. Qed.

Lemma mul_one_l x : representable x = true -> mul (Fin (2 ^ emin)) (Fin x) = Fin x.
Proof.
  intros Hx. unfold mul, mk.
  rewrite round_scale by (apply Z.pow_pos_nonneg; unfold emin; lia).
  apply representable_spec in Hx as [-> H]. cbv zeta.
  apply Z.ltb_lt in H. now rewrite H.
Qed.

(** Line 133 on one entry, when [y - dy] needs no rounding. *)
Lemma dual_update1 y dy :
  representable y = true -> representable dy = true ->
  representable (y - dy) = true ->
  sub (Fin y) (mul alpha (add (neg (Fin dy)) (Fin y))) = Fin dy.
Proof.
  intros Hy Hdy Hd. rewrite alpha_eq.
  unfold neg, add at 1.
  replace (- dy + y) with (y - dy) by lia.
  rewrite (mk_exact _ Hd), (mul_one_l _ Hd).
  unfold sub, neg, add.
  replace (y + - (y - dy)) with dy by lia.
  now apply mk_exact.
Qed.

(** Sterbenz: the difference of two doubles within a factor two of each
    other is a double. *)
Lemma sterbenz y dy :
  representable y = true -> representable dy = true ->
  dy <= 2 * y -> y <= 2 * dy ->
  representable (y - dy) = true.
Proof.
  intros Hy Hdy H1 H2.
  apply representable_spec in Hy as [Ey Hhy].
  apply representable_spec in Hdy as [Ed Hhd].
  apply representable_spec.
  assert (0 <= y /\ 0 <= dy) as [Py Pd] by lia.
  assert (Hsmall : forall a b, round a 1 = a -> round b 1 = b ->
            0 <= a <= b -> b <= 2 * a -> round (b - a) 1 = b - a).
  { intros a b Ea Eb Hab Hba.
    apply round_exact with (ulp_exp a 1).
    - apply ulp_exp_nonneg.
    - apply Z.divide_sub_r.
      + apply Z.divide_trans with (2 ^ ulp_exp b 1).
        * apply pow2_divide. split; [apply ulp_exp_nonneg|].
          rewrite !ulp_exp_1.
          apply Z.max_le_compat_l, Z.sub_le_mono_r, Z.log2_le_mono. lia.
        * rewrite <- Eb at 2. apply round_divide.
      + rewrite <- Ea at 2. apply round_divide.
    - assert (Z.abs (b - a) <= Z.abs a) by lia.
      assert (Z.abs a < 2 ^ (53 + ulp_exp a 1)); [|lia].
      rewrite ulp_exp_1.
      destruct (Z.eq_dec a 0) as [->|Na].
      { cbn. reflexivity. }
      pose proof (Z.log2_spec (Z.abs a) ltac:(lia)) as [_ Hl].
      eapply Z.lt_le_trans; [exact Hl|].
      apply Z.pow_le_mono_r; lia. }
  split; [|lia].
  destruct (Z_le_gt_dec dy y).
  - apply Hsmall; auto; lia.
  - replace (y - dy) with (- (dy - y)) by lia.
    assert (E : round (dy - y) 1 = dy - y) by (apply Hsmall; auto; lia).
    apply round_exact_k.
    replace (ulp_exp (- (dy - y)) 1) with (ulp_exp (dy - y) 1)
      by (rewrite !ulp_exp_1, Z.abs_opp; reflexivity).
    apply Z.divide_opp_r. rewrite <- E at 2. apply round_divide.
Qed.
End F64Facts.

(** On the samples the four operations and the two comparisons agree
    with [SFadd], [SFsub], [SFmul], [SFdiv], [SFltb] and [SFleb]. *)
Example operations_agree_with_spec_float :
  agree F64.add (SFadd 53 1024) && agree F64.sub (SFsub 53 1024) &&
  agree F64.mul (SFmul 53 1024) && agree F64.div (SFdiv 53 1024) &&
  forallb (fun x => forallb (fun y =>
    Bool.eqb (F64.ltb x y) (SFltb (F64.to_spec x) (F64.to_spec y)) &&
    Bool.eqb (F64.leb x y) (SFleb (F64.to_spec x) (F64.to_spec y)))
    samples) samples = true.
Proof. vm_compute. reflexivity. Qed.

(* ================================================================= *)
(** ** Facts about runs *)

Section RunFacts.

Context {A B : Type}.

Lemma bind_run (m : M A) (f : A -> M B) (env : Env) :
  bind m f env =
  (result (f (result m env)) env, trace m env ++ trace (f (result m env)) env).
Proof.
  unfold bind, result, trace.
  destruct (m env) as [a l1]. cbn. now destruct (f a env).
Qed.

Lemma result_bind (m : M A) (f : A -> M B) env :
  result (bind m f) env = result (f (result m env)) env.
Proof. unfold result at 1. now rewrite bind_run. Qed.

Lemma trace_bind (m : M A) (f : A -> M B) env :
  trace (bind m f) env = trace m env ++ trace (f (result m env)) env.
Proof. unfold trace at 1. now rewrite bind_run. Qed.

End RunFacts.

Section ScriptFacts.

Context (L : Library).

(** *** A run is its parts, one after the other *)

Lemma script_run fuel env :
  script L fuel env =
  (mkRun L (built L env) (solver L env) (result (ik_run L env) env)
         (fst (fst (result (sim_start L env) env)))
         (snd (fst (result (sim_start L env) env)))
         (result (sim_run L fuel env) env),
   trace (build L) env ++
   trace (viewer_setup L (built L env)) env ++
   trace (ik_setup L (built L env) (snd (viewer L env))) env ++
   trace (ik_run L env) env ++
   trace (sim_start L env) env ++
   trace (sim_run L fuel env) env).
Proof.
  unfold script. rewrite bind_run.
  repeat (rewrite ?result_bind, ?trace_bind; cbv zeta).
  fold (built L env). fold (viewer L env). fold (solver L env).
  fold (ik_run L env). fold (sim_start L env). fold (sim_run L fuel env).
  unfold ret. cbn [result trace fst snd].
  now rewrite app_nil_r.
Qed.

Lemma script_result fuel env :
  result (script L fuel) env =
  mkRun L (built L env) (solver L env) (result (ik_run L env) env)
        (fst (fst (result (sim_start L env) env)))
        (snd (fst (result (sim_start L env) env)))
        (result (sim_run L fuel env) env).
Proof. unfold result at 1. now rewrite script_run. Qed.

Lemma script_trace fuel env :
  trace (script L fuel) env =
  trace (build L) env ++
  trace (viewer_setup L (built L env)) env ++
  trace (ik_setup L (built L env) (snd (viewer L env))) env ++
  trace (ik_run L env) env ++
  trace (sim_start L env) env ++
  trace (sim_run L fuel env) env.
Proof. unfold trace at 1. now rewrite script_run. Qed.

(** *** The loops, pass by pass *)

Lemma ik_body_run b cm cd s env :
  ik_body L b cm cd s env =
  let m := result (ik_measure L b cm s) env in
  if converged (primal_feas m) (dual_feas m) then
    ((true, mkIK L (ik_q s) (ik_y s) (m_data L m) (m_cdata L m) (m_kkt m)),
     trace (ik_measure L b cm s) env ++
     [mkEntry 122 (Print "Convergence achieved" [])])
  else
    ((false, result (ik_step L b cd s m) env),
     trace (ik_measure L b cm s) env ++ trace (ik_step L b cd s m) env).
Proof.
  unfold ik_body. rewrite bind_run. cbv zeta.
  destruct (converged _ _); reflexivity.
Qed.

Lemma ik_loop_S b cm cd n done s env :
  ik_loop L b cm cd (S n) done s env =
  let r := ik_body L b cm cd s env in
  if fst (fst r) then (mkIKResult L (snd (fst r)) (S done) true, snd r)
  else (result (ik_loop L b cm cd n (S done) (snd (fst r))) env,
        snd r ++ trace (ik_loop L b cm cd n (S done) (snd (fst r))) env).
Proof.
  cbn [ik_loop]. rewrite bind_run. cbv zeta. unfold result, trace.
  destruct (ik_body L b cm cd s env) as [[stop s'] l]. cbn [fst snd].
  destruct stop; [cbn; now rewrite app_nil_r | reflexivity].
Qed.

Lemma sim_loop_S b cm fuel done s env :
  sim_guard L s = true ->
  sim_loop L b cm (S fuel) done s env =
  (result (sim_loop L b cm fuel (S done) (result (sim_body L b cm s) env)) env,
   trace (sim_body L b cm s) env ++
   trace (sim_loop L b cm fuel (S done) (result (sim_body L b cm s) env)) env).
Proof. intros H. cbn [sim_loop]. rewrite H. now rewrite bind_run. Qed.

Lemma sim_loop_exit b cm fuel done s env :
  sim_guard L s = false ->
  sim_loop L b cm fuel done s env = (Some (s, done), []).
Proof. intros H. destruct fuel; cbn [sim_loop]; now rewrite H. Qed.

Lemma sim_loop_O b cm done s env :
  sim_guard L s = true ->
  sim_loop L b cm 0 done s env = (None, []).
Proof. intros H. cbn [sim_loop]. now rewrite H. Qed.

(** The calls of lines 114-120, whatever they return. *)
Lemma ik_measure_lines b cm s env :
  map line (trace (ik_measure L b cm s) env) = [114; 115; 118; 119; 120]%nat.
Proof. reflexivity. Qed.

Lemma ik_step_lines b cd s m env :
  map line (trace (ik_step L b cd s m) env) = [124; 127; 132]%nat.
Proof. reflexivity. Qed.

(** What one pass leaves in the trace, by the way it ends. *)
Lemma ik_body_trace b cm cd s env :
  let m := result (ik_measure L b cm s) env in
  trace (ik_body L b cm cd s) env =
  trace (ik_measure L b cm s) env ++
  (if fst (result (ik_body L b cm cd s) env) then [convergence_entry]
   else trace (ik_step L b cd s m) env).
Proof.
  unfold result at 2, trace at 1. rewrite ik_body_run. cbv zeta.
  destruct (converged _ _); reflexivity.
Qed.

Lemma ik_body_stop b cm cd s env :
  let m := result (ik_measure L b cm s) env in
  fst (result (ik_body L b cm cd s) env) =
  converged (primal_feas m) (dual_feas m).
Proof.
  unfold result at 2. rewrite ik_body_run. cbv zeta.
  destruct (converged _ _); reflexivity.
Qed.

(** A property of every entry of every pass holds along the loop. *)
Lemma ik_loop_forallb (P : Entry -> bool) b cm cd env :
  (forall s, forallb P (trace (ik_body L b cm cd s) env) = true) ->
  forall n done s, forallb P (trace (ik_loop L b cm cd n done s) env) = true.
Proof.
  intros HP. induction n as [|n IH]; intros done s; [reflexivity|].
  unfold trace. rewrite ik_loop_S. cbv zeta.
  specialize (HP s). unfold trace in HP.
  destruct (fst (fst (ik_body L b cm cd s env))); cbn [snd]; [exact HP|].
  rewrite forallb_app, HP. apply IH.
Qed.

(** The count of the passes and of what they leave in the trace. *)
Lemma ik_loop_passes b cm cd env n :
  forall done s,
  let r := result (ik_loop L b cm cd n done s) env in
  let tr := trace (ik_loop L b cm cd n done s) env in
  exists k : nat,
    iterations r = (done + k)%nat /\ (k <= n)%nat /\
    (broke r = true /\ (1 <= k)%nat \/ broke r = false /\ k = n) /\
    List.length (of_line 114 tr) = k /\
    List.length (filter is_KKTCompute tr) = k /\
    List.length (filter is_KKTSolve tr) = (if broke r then k - 1 else k)%nat /\
    of_line 122 tr = (if broke r then [convergence_entry] else []) /\
    List.length (of_line 124 tr) = (if broke r then k - 1 else k)%nat.
Proof.
  induction n as [|n IH]; intros done s.
  - exists 0%nat. cbn. repeat split; auto; lia.
  - cbv zeta. unfold result, trace. rewrite ik_loop_S. cbv zeta.
    pose proof (ik_body_trace b cm cd s env) as Ht. cbv zeta in Ht.
    unfold result at 1 2, trace at 1 in Ht.
    destruct (ik_body L b cm cd s env) as [[stop s'] l]. cbn [fst snd] in *.
    destruct stop; cbn [fst snd].
    + exists 1%nat. subst l. cbn. repeat split; auto; lia.
    + specialize (IH (S done) s'). cbv zeta in IH.
      destruct IH as (k & Hi & Hk & Hb & H114 & Hc & Hs & H122 & H124).
      exists (S k). unfold result, trace in *.
      destruct (ik_loop L b cm cd n (S done) s' env) as [r tr].
      cbn [fst snd] in *. subst l.
      unfold of_line in *. rewrite !filter_app, !length_app.
      rewrite H114, Hc, Hs, H122, H124. cbn.
      repeat split; try lia.
      * destruct Hb as [[-> ?]|[-> ?]]; [left|right]; split; auto; lia.
      * destruct Hb as [[-> ?]|[-> ?]]; lia.
      * destruct Hb as [[-> ?]|[-> ?]]; lia.
Qed.

Lemma sim_loop_forallb (P : Entry -> bool) b cm env :
  (forall s, forallb P (trace (sim_body L b cm s) env) = true) ->
  forall fuel done s,
    forallb P (trace (sim_loop L b cm fuel done s) env) = true.
Proof.
  intros HP. induction fuel as [|fuel IH]; intros done s;
    destruct (sim_guard L s) eqn:G; unfold trace.
  - now rewrite sim_loop_O.
  - now rewrite sim_loop_exit.
  - rewrite sim_loop_S by exact G. cbn [snd].
    rewrite forallb_app, HP. apply IH.
  - now rewrite sim_loop_exit.
Qed.

Lemma filter_none {X} (f : X -> bool) (l : list X) :
  forallb (fun x => negb (f x)) l = true -> filter f l = [].
Proof.
  induction l as [|x l IH]; cbn; [reflexivity|].
  destruct (f x); cbn; [discriminate | exact IH].
Qed.


Lemma script_filter (f : Entry -> bool) fuel env :
  filter f (trace (script L fuel) env) =
  filter f (trace (build L) env) ++
  filter f (trace (viewer_setup L (built L env)) env) ++
  filter f (trace (ik_setup L (built L env) (snd (viewer L env))) env) ++
  filter f (trace (ik_run L env) env) ++
  filter f (trace (sim_start L env) env) ++
  filter f (trace (sim_run L fuel env) env).
Proof. now rewrite script_trace, !filter_app. Qed.

(** Entries no pass of the inverse-kinematics loop makes. *)
Lemma ik_run_filter_none (f : Entry -> bool) env :
  (forall b cm cd s m,
     forallb (fun e => negb (f e)) (trace (ik_measure L b cm s) env) &&
     forallb (fun e => negb (f e)) (trace (ik_step L b cd s m) env) &&
     negb (f convergence_entry) = true) ->
  filter f (trace (ik_run L env) env) = [].
Proof.
  intros H. apply filter_none. unfold ik_run.
  apply ik_loop_forallb. intros s.
  rewrite ik_body_trace. cbv zeta. rewrite forallb_app.
  specialize (H (built L env) (constraint_model (solver L env))
                (constraint_dim (solver L env)) s
                (result (ik_measure L (built L env)
                           (constraint_model (solver L env)) s) env)).
  apply andb_true_iff in H as [H Hc]. apply andb_true_iff in H as [-> Hs].
  destruct (fst _); cbn [andb forallb]; [now rewrite Hc|exact Hs].
Qed.

(** Entries no pass of the simulation loop makes. *)
Lemma sim_run_filter_none (f : Entry -> bool) fuel env :
  (forall b cm s,
     forallb (fun e => negb (f e)) (trace (sim_body L b cm s) env) = true) ->
  filter f (trace (sim_run L fuel env) env) = [].
Proof.
  intros H. apply filter_none. unfold sim_run. now apply sim_loop_forallb.
Qed.

End ScriptFacts.


(** Replaces the filtered trace of a straight-line part by [l]. *)
Ltac part_is m l :=
  match goal with
  | |- context [filter ?f (trace m ?env)] =>
      replace (filter f (trace m env)) with l by reflexivity
  end.

Lemma geometries_filter tr :
  geometries tr = geometries (filter is_AddGeometryObject tr).
Proof.
  unfold geometries, is_AddGeometryObject.
  induction tr as [|e tr IH]; [reflexivity|]. cbn [filter flat_map].
  destruct (event e) eqn:E; cbn [flat_map app]; rewrite ?E; cbn [app];
    rewrite <- IH; reflexivity.
Qed.

(** *** Phases along a trace *)








(** *** The wrap of line 136 *)

Lemma wrap_map q : wrap q = map wrap1 q.
Proof.
  unfold wrap, Np.sub_s, Np.rem_s, Np.add_s. rewrite !map_map. reflexivity.
Qed.

(** An entry that is not finite is wrapped into NaN. *)
Lemma wrap1_not_finite x :
  is_double x = true -> F64.finite x = false -> wrap1 x = F64.NaN.
Proof.
  destruct x as [|s|n]; cbn [is_double F64.finite]; intros Hd Hf.
  - reflexivity.
  - reflexivity.
  - congruence.
Qed.

Lemma wrap1_range x :
  is_double x = true ->
  nonneg (wrap1 x) = false /\
  (F64.finite x = false \/ in_wrap_range (wrap1 x) = true).
Proof.
  intros Hd. destruct (F64.finite x) eqn:Hf.
  - destruct x as [|s|n]; try discriminate. cbn [F64.finite] in Hf.
    destruct (F64Facts.wrap1_fin n Hf) as (r & Hr & Hlo & Hhi).
    unfold wrap1. rewrite Hr. unfold nonneg, in_wrap_range.
    rewrite F64Facts.pi_eq. cbn [F64.neg F64.leb F64.ltb F64.zero].
    split; [apply Z.leb_gt; lia|]. right.
    apply andb_true_iff. split; [apply Z.leb_le | apply Z.ltb_lt]; lia.
  - rewrite wrap1_not_finite by assumption. split; [reflexivity | now left].
Qed.

(** *** The simulation loop runs as long as its clock allows *)

Lemma sim_body_t (L : Library) b cm s env :
  sim_t (result (sim_body L b cm s) env) = tick (sim_t s).
Proof. reflexivity. Qed.

(** The variables of the simulation after [n] passes. *)
Lemma sim_iter_t (L : Library) b cm env n s :
  sim_t (Nat.iter n (fun s => result (sim_body L b cm s) env) s) =
  Nat.iter n tick (sim_t s).
Proof.
  induction n as [|n IH]; [reflexivity|].
  rewrite !Nat.iter_succ. now rewrite sim_body_t, IH.
Qed.

Lemma sim_loop_passes (L : Library) b cm env n :
  forall extra done s,
  (forall j, (j < n)%nat -> F64.leb (Nat.iter j tick (sim_t s)) T_sim = true) ->
  F64.leb (Nat.iter n tick (sim_t s)) T_sim = false ->
  let s' := Nat.iter n (fun s => result (sim_body L b cm s) env) s in
  result (sim_loop L b cm (n + extra) done s) env = Some (s', (done + n)%nat) /\
  sim_guard L s' = false /\
  List.length (of_line 153 (trace (sim_loop L b cm (n + extra) done s) env)) = n.
Proof.
  induction n as [|n IH]; intros extra done s Hbefore Hexit.
  - cbn [Nat.iter] in *. unfold result, trace.
    rewrite sim_loop_exit by exact Hexit. cbn [fst snd].
    rewrite Nat.add_0_r. repeat split. exact Hexit.
  - assert (G : sim_guard L s = true) by (apply (Hbefore 0%nat); lia).
    destruct (IH extra (S done) (result (sim_body L b cm s) env))
      as (Hr & Hg & Hl).
    + intros j Hj. rewrite sim_body_t, <- Nat.iter_succ_r.
      apply Hbefore. lia.
    + rewrite sim_body_t, <- Nat.iter_succ_r. exact Hexit.
    + cbv zeta. rewrite Nat.iter_succ_r.
      unfold result, trace in *. cbn [Nat.add].
      rewrite sim_loop_S by exact G. cbn [fst snd].
      unfold result, trace.
      split; [rewrite Hr; f_equal; f_equal; lia|]. split; [exact Hg|].
      unfold of_line in *. rewrite filter_app, length_app, Hl.
      reflexivity.
Qed.

Section Claims.

Context (L : Library).


(** C2.  The inverse-kinematics loop is [for k in range(N)] with
    [N = 100]: its body runs at most 100 times, and exactly 100 times
    unless the loop was left by [break]; line 114, the first of the body,
    is reached once per pass.  Being a recursion on the remaining count,
    the loop ends whatever the library returns. *)
Theorem ik_loop_runs_at_most_N_times (fuel : nat) (env : Env) :
  let r := run_ik (result (script L fuel) env) in
  let tr := trace (script L fuel) env in
  N = 100%nat /\
  (iterations r <= 100)%nat /\
  (broke r = true \/ iterations r = 100%nat) /\
  List.length (of_line 114 tr) = iterations r /\
  forall b cm cd n s,
    (iterations (result (ik_loop L b cm cd n 0 s) env) <= n)%nat.
Proof.
  cbv zeta. rewrite script_result. cbn [run_ik].
  split; [reflexivity|].
  destruct (ik_loop_passes L (built L env) (constraint_model (solver L env))
              (constraint_dim (solver L env)) env 100%nat 0%nat
              (start (solver L env)))
    as (k & Hi & Hk & Hb & H114 & _).
  cbv zeta in *. unfold ik_run. change N with 100%nat.
  repeat split.
  - lia.
  - destruct Hb as [[Hb _]|[_ Hb]]; [now left | right; lia].
  - unfold of_line in *. rewrite script_filter.
    rewrite sim_run_filter_none by (intros; reflexivity).
    part_is (build L) (@nil Entry).
    part_is (viewer_setup L (built L env)) (@nil Entry).
    part_is (ik_setup L (built L env) (snd (viewer L env))) (@nil Entry).
    part_is (sim_start L env) (@nil Entry).
    cbn [app]. rewrite app_nil_r. unfold ik_run. change N with 100%nat. lia.
  - intros b cm cd n s.
    destruct (ik_loop_passes L b cm cd env n 0%nat s) as (j & Hj & Hn & _).
    cbv zeta in *. lia.
Qed.

(** The calls of the construction and of the constraint set-up, as a
    whole run logs them, for any library: three [addJoint] calls, all
    [JointModelRY], each on the index the call before it returned; four
    [addGeometryObject] calls; one contact model. *)
Lemma construction_calls (fuel : nat) (env : Env) :
  let run := result (script L fuel) env in
  let tr := trace (script L fuel) env in
  let b := run_built run in
  events (filter is_AddJoint tr) =
    [AddJoint 0%nat JointModelRY (joint1_placement_ L) "link_B1" (joint1 b);
     AddJoint (joint1 b) JointModelRY (joint2_placement_ L) "link_A2"
              (joint2 b);
     AddJoint (joint2 b) JointModelRY (joint3_placement_ L) "link_B2"
              (joint3 b)] /\
  map (fun g => (geom_name g, parent_joint g, geometry g)) (geometries tr) =
    [("link_A1"%string, 0%nat, Capsule radius length_link_A);
     ("link_B1"%string, joint1 b, Capsule radius length_link_B);
     ("link_A2"%string, joint2 b, Capsule radius length_link_A);
     ("link_B2"%string, joint3 b, Capsule radius length_link_B)] /\
  events (filter is_NewContactModel tr) =
    [NewContactModel CONTACT_3D (joint3 b) (constraint1_joint1_placement L)
                     0%nat (constraint1_joint2_placement L)] /\
  constraint_model (run_solver run) =
    RigidContactModel_new L CONTACT_3D (joint3 b)
      (constraint1_joint1_placement L) 0%nat (constraint1_joint2_placement L).
Proof.
  cbv zeta. rewrite script_result. cbn [run_built run_solver].
  split; [|split; [|split]].
  - rewrite script_filter.
    rewrite ik_run_filter_none by (intros; reflexivity).
    rewrite sim_run_filter_none by (intros; reflexivity).
    reflexivity.
  - rewrite geometries_filter, script_filter.
    rewrite ik_run_filter_none by (intros; reflexivity).
    rewrite sim_run_filter_none by (intros; reflexivity).
    reflexivity.
  - rewrite script_filter.
    rewrite ik_run_filter_none by (intros; reflexivity).
    rewrite sim_run_filter_none by (intros; reflexivity).
    reflexivity.
  - reflexivity.
Qed.

(** What the construction leaves in the two containers, when they keep
    what they are given: the value [build] returns is the chain of
    library calls of lines 40-67, read through the two views. *)
Lemma built_contents (joints_of : Model L -> list Joint)
    (bodies_of : Model L -> list Body)
    (objects_of : GeometryModel L -> list GeometryObject) (env : Env) :
  Containers L joints_of bodies_of objects_of ->
  let b := built L env in
  (joint1 b, joint2 b, joint3 b) = (1%nat, 2%nat, 3%nat) /\
  joints_of (model b) =
    [(0%nat, JointModelRY, joint1_placement_ L, "link_B1"%string);
     (1%nat, JointModelRY, joint2_placement_ L, "link_A2"%string);
     (2%nat, JointModelRY, joint3_placement_ L, "link_B2"%string)] /\
  bodies_of (model b) =
    [(1%nat, inertia_link_B, placement_center_link_B L);
     (2%nat, inertia_link_A, placement_center_link_A L);
     (3%nat, inertia_link_B, placement_center_link_B L)] /\
  map (fun g => (geom_name g, parent_joint g, geometry g))
      (objects_of (collision_model b)) =
    [("link_A1"%string, 0%nat, Capsule radius length_link_A);
     ("link_B1"%string, 1%nat, Capsule radius length_link_B);
     ("link_A2"%string, 2%nat, Capsule radius length_link_A);
     ("link_B2"%string, 3%nat, Capsule radius length_link_B)].
Proof.
  intros HC. cbv zeta. unfold built, build, result.
  cbv [bind at_line ret].
  cbn [fst snd model collision_model joint1 joint2 joint3].
  repeat (rewrite ?(joints_body _ _ _ _ HC), ?(joints_add _ _ _ _ HC),
            ?(index_add _ _ _ _ HC), ?(joints_new _ _ _ _ HC),
            ?(bodies_add _ _ _ _ HC), ?(bodies_joint _ _ _ _ HC),
            ?(bodies_new _ _ _ _ HC),
            ?(objects_add _ _ _ _ HC), ?(objects_new _ _ _ _ HC);
          cbn [app List.length]).
  split; [reflexivity|]. split; [reflexivity|]. split; reflexivity.
Qed.

(** C5.  The mechanism is a four-bar loop.  For every library whose
    containers keep what they are given ([Containers]), after a whole
    run the model holds exactly three joints besides the universe joint
    0, with indices 1, 2, 3, all [JointModelRY], chained from the base
    (the parents are 0, 1, 2: each joint hangs on the one added before
    it) and each carrying one body; the collision model holds four
    capsules, [link_A1] on the base
    and [link_B1], [link_A2], [link_B2] on joints 1, 2, 3; the calls the
    run logs are these three [addJoint] and four [addGeometryObject]
    calls and no others; and exactly one contact model is built,
    [CONTACT_3D] between joint 3, at [XAxis * 0.6], and the base joint 0,
    at [-XAxis * 1. / 2.]. *)
Theorem four_bar_assembly (joints_of : Model L -> list Joint)
    (bodies_of : Model L -> list Body)
    (objects_of : GeometryModel L -> list GeometryObject)
    (fuel : nat) (env : Env) :
  Containers L joints_of bodies_of objects_of ->
  let run := result (script L fuel) env in
  let tr := trace (script L fuel) env in
  let b := run_built run in
  (joint1 b, joint2 b, joint3 b) = (1%nat, 2%nat, 3%nat) /\
  joints_of (model b) =
    [(0%nat, JointModelRY, joint1_placement_ L, "link_B1"%string);
     (1%nat, JointModelRY, joint2_placement_ L, "link_A2"%string);
     (2%nat, JointModelRY, joint3_placement_ L, "link_B2"%string)] /\
  bodies_of (model b) =
    [(1%nat, inertia_link_B, placement_center_link_B L);
     (2%nat, inertia_link_A, placement_center_link_A L);
     (3%nat, inertia_link_B, placement_center_link_B L)] /\
  map (fun g => (geom_name g, parent_joint g, geometry g))
      (objects_of (collision_model b)) =
    [("link_A1"%string, 0%nat, Capsule radius length_link_A);
     ("link_B1"%string, 1%nat, Capsule radius length_link_B);
     ("link_A2"%string, 2%nat, Capsule radius length_link_A);
     ("link_B2"%string, 3%nat, Capsule radius length_link_B)] /\
  events (filter is_AddJoint tr) =
    [AddJoint 0%nat JointModelRY (joint1_placement_ L) "link_B1" 1%nat;
     AddJoint 1%nat JointModelRY (joint2_placement_ L) "link_A2" 2%nat;
     AddJoint 2%nat JointModelRY (joint3_placement_ L) "link_B2" 3%nat] /\
  map (fun g => (geom_name g, parent_joint g, geometry g)) (geometries tr) =
    [("link_A1"%string, 0%nat, Capsule radius length_link_A);
     ("link_B1"%string, 1%nat, Capsule radius length_link_B);
     ("link_A2"%string, 2%nat, Capsule radius length_link_A);
     ("link_B2"%string, 3%nat, Capsule radius length_link_B)] /\
  events (filter is_NewContactModel tr) =
    [NewContactModel CONTACT_3D 3%nat (constraint1_joint1_placement L)
                     0%nat (constraint1_joint2_placement L)] /\
  constraint_model (run_solver run) =
    RigidContactModel_new L CONTACT_3D 3%nat
      (constraint1_joint1_placement L) 0%nat (constraint1_joint2_placement L) /\
  translation (constraint1_joint1_placement L) =
    Np.mul_s (XAxis L) (F64.lit 6 (-1)) /\
  translation (constraint1_joint2_placement L) =
    Np.div_s (Np.mul_s (Np.neg (XAxis L)) (F64.lit 1 0)) (F64.lit 2 0).
Proof.
  intros HC.
  pose proof (construction_calls fuel env) as (Hj & Hg & Hc & Hm).
  pose proof (built_contents joints_of bodies_of objects_of env HC)
    as (Hid & Hjs & Hbs & Hos).
  cbv zeta in *.
  rewrite script_result in Hj, Hg, Hc, Hm. rewrite script_result.
  cbn [run_built run_solver] in *.
  assert (H1 : joint1 (built L env) = 1%nat)
    by exact (f_equal (fun p => fst (fst p)) Hid).
  assert (H2 : joint2 (built L env) = 2%nat)
    by exact (f_equal (fun p => snd (fst p)) Hid).
  assert (H3 : joint3 (built L env) = 3%nat) by exact (f_equal snd Hid).
  rewrite H1, H2, H3 in Hj. rewrite H1, H2, H3 in Hg.
  rewrite H3 in Hc. rewrite H3 in Hm. rewrite H1, H2, H3.
  split; [reflexivity|]. split; [exact Hjs|]. split; [exact Hbs|].
  split; [exact Hos|].
  split; [exact Hj|]. split; [exact Hg|]. split; [exact Hc|].
  split; [exact Hm|]. split; reflexivity.
Qed.


(** C7.  One pass of the simulation loop is a semi-implicit Euler step
    of size [dt = 5e-3]: the velocity is updated first with the
    acceleration [contactDynamics] returns, [v + a*dt]; the configuration
    is then integrated along the updated velocity, [integrate(model, q,
    v*dt)]; the new configuration is displayed after both, then the script
    sleeps and advances [t] by [dt]. *)
Theorem simulation_step_is_semi_implicit_euler
    (b : Built L) (cm : Contact L) (s : Sim L) (env : Env) :
  let tau := Np.zeros (nv L (model b)) in
  let a := fst (fst (contactDynamics L (model b) (sim_data L s) (sim_q s)
                       (sim_v s) tau [cm] [sim_cdata L s] mu_sim)) in
  let s' := result (sim_body L b cm s) env in
  dt = F64.lit 5 (-3) /\
  sim_v s' = Np.add (sim_v s) (Np.mul_s a dt) /\
  sim_q s' = integrate L (model b) (sim_q s) (Np.mul_s (sim_v s') dt) /\
  sim_t s' = F64.add (sim_t s) dt /\
  events (trace (sim_body L b cm s) env) =
    [Call "contactDynamics" [sim_q s; sim_v s; tau];
     Call "integrate" [sim_q s; Np.mul_s (sim_v s') dt];
     Display (sim_q s');
     Sleep dt] /\
  forall fuel done,
    result (sim_loop L b cm (S fuel) done s) env =
    if sim_guard L s then result (sim_loop L b cm fuel (S done) s') env
    else Some (s, done).
Proof.
  cbv zeta. repeat split.
  intros fuel done. unfold result at 1.
  destruct (sim_guard L s) eqn:G.
  - now rewrite sim_loop_S.
  - now rewrite sim_loop_exit.
Qed.

(** C4.  The simulation loop [while t <= T_sim] ends: with [t = 0],
    [dt = 5e-3] and [T_sim = 100000] the guard fails for the first time
    after [n] passes, for some [n] between 19999971 and 20000030 (about
    [T_sim / dt = 2e7]; each [t += dt] rounds to within [2^-37]); the loop
    then returns, having made [n] calls of [contactDynamics] on line 153,
    whatever the library computes. *)
Theorem simulation_loop_terminates (env : Env) :
  exists (n : nat) (s' : Sim L),
    19999971 <= Z.of_nat n <= 20000030 /\
    sim_guard L s' = false /\
    forall extra,
      run_sim (result (script L (n + extra)) env) = Some (s', n) /\
      List.length (of_line 153 (trace (script L (n + extra)) env)) = n.
Proof.
  destruct F64Facts.clock_exit as (n & Hn & Hexit & Hbefore).
  pose proof (fun extra =>
    sim_loop_passes L (built L env)
      (snd (fst (result (sim_start L env) env))) env n extra 0%nat
      (snd (result (sim_start L env) env)) Hbefore Hexit) as H.
  cbv zeta in H.
  eexists n, _. split; [exact Hn|]. split; [exact (proj1 (proj2 (H 0%nat)))|].
  intros extra. destruct (H extra) as (Hr & _ & Hl).
  rewrite script_result. cbn [run_sim]. split; [exact Hr|].
  unfold of_line in *. rewrite script_filter.
  rewrite ik_run_filter_none by (intros; reflexivity).
  part_is (build L) (@nil Entry).
  part_is (viewer_setup L (built L env)) (@nil Entry).
  part_is (ik_setup L (built L env) (snd (viewer L env))) (@nil Entry).
  part_is (sim_start L env) (@nil Entry).
  exact Hl.
Qed.

End Claims.

(** Checks a list of closed facts entry by entry, by evaluation. *)
Ltac each_by_evaluation :=
  repeat first
    [ apply Forall_nil
    | apply Forall2_nil
    | apply Forall_cons; [vm_compute; reflexivity|]
    | apply Forall2_cons; [vm_compute; reflexivity|] ].

(** Whatever double an entry is computed from, it is not [>= 0]. *)
Lemma wrap_never_nonneg (q : Np.array) :
  Forall (fun x => is_double x = true) q ->
  Forall (fun w => nonneg w = false) (wrap q).
Proof.
  intros Hq. rewrite wrap_map.
  induction Hq as [|x q Hx Hq IH]; constructor; [|exact IH].
  now apply wrap1_range.
Qed.

(** C3.  Every entry of [q_sol = (q + pi) % pi - pi] lies in
    [[-pi, 0)], for every array [q] of finite doubles: it is at least
    [-pi], strictly below zero, and so never [>= 0]. *)
Theorem wrapped_solution_is_negative (q : Np.array) :
  Forall (fun x => F64.finite x = true) q ->
  Forall (fun w => in_wrap_range w = true /\ nonneg w = false) (wrap q).
Proof.
  intros Hq. rewrite wrap_map.
  induction Hq as [|x q Hx Hq IH]; constructor; [|exact IH].
  assert (Hd : is_double x = true) by (destruct x; auto; discriminate).
  destruct (wrap1_range x Hd) as [Hn [Hf|Hr]]; [congruence|now split].
Qed.

Lemma wrapped_solution_is_negative_witness :
  let q := [F64.lit 1 0; F64.neg (F64.lit 1 0); F64.zero; F64.lit 25 (-1);
            F64.neg (F64.lit 7 0); F64.neg F64.pi; F64.lit 1 300] in
  Forall (fun x => F64.finite x = true) q /\
  Forall (fun w => in_wrap_range w = true /\ nonneg w = false) (wrap q).
Proof.
  cbv zeta. split.
  - each_by_evaluation.
  - apply wrapped_solution_is_negative. each_by_evaluation.
Defined.

(** *** The dual update of line 133 *)

Lemma dual_update_cons y ys d ds :
  dual_update (y :: ys) (d :: ds) =
  F64.sub y (F64.mul alpha (F64.add (F64.neg d) y)) :: dual_update ys ds.
Proof. reflexivity. Qed.

(** C8 (as the code has it).  With [alpha = 1.] the update
    [y -= alpha*(-dy + y)] leaves [y = dy] whenever every difference
    [y_i - dy_i] is a double, so that no rounding takes place; and after
    a pass that does not converge [y] is that update of the first
    [constraint_dim] entries of the solve result. *)
Theorem dual_update_is_dy_when_exact (y dy : Np.array) :
  Forall2 (fun yi di => exact_diff yi di = true) y dy ->
  dual_update y dy = dy /\
  forall (L : Library) b cd s m env,
    ik_y (result (ik_step L b cd s m) env) =
    dual_update (ik_y s)
      (Np.upto cd
         (solve L (m_kkt m)
            (Np.concatenate
               (Np.sub (Np.neg (constraint_value m)) (Np.mul_s (ik_y s) mu))
               (Np.zeros (nv L (model b)))))).
Proof.
  intros H. split; [|reflexivity].
  induction H as [|yi di ys ds Hx H IH]; [reflexivity|].
  rewrite dual_update_cons, IH. f_equal.
  destruct yi as [| |a]; try discriminate.
  destruct di as [| |c]; try discriminate.
  cbn [exact_diff] in Hx.
  apply andb_true_iff in Hx as [Hx Hd]. apply andb_true_iff in Hx as [Ha Hc].
  now apply F64Facts.dual_update1.
Qed.

Lemma dual_update_is_dy_when_exact_witness :
  let y := [F64.lit 1 0; F64.lit 1 0; F64.lit 1 0] in
  let dy := [F64.lit 15 (-1); F64.lit 75 (-2); F64.lit 1 0] in
  Forall2 (fun yi di => exact_diff yi di = true) y dy /\ dual_update y dy = dy.
Proof.
  cbv zeta. split.
  - each_by_evaluation.
  - apply dual_update_is_dy_when_exact. each_by_evaluation.
Defined.

(** C8 as stated fails.  With [y] as the script initialises it,
    [np.ones], and [dy = -1e-4] the sum [-dy + y] is rounded and the
    update returns [-9.999999999998899e-05], not [dy]. *)
Lemma dual_update_rounds :
  let d := F64.neg (F64.lit 1 (-4)) in
  dual_update (Np.ones 3) [d; d; d] <> [d; d; d].
Proof. vm_compute. discriminate. Qed.


(** The list-backed library keeps what it is given, and there the run
    assembles the four-bar loop. *)
Lemma four_bar_assembly_witness :
  Containers Toy.closed Toy.joints Toy.bodies (fun gm => gm) /\
  let run := result (script Toy.closed 0) Toy.env0 in
  let tr := trace (script Toy.closed 0) Toy.env0 in
  let b := run_built run in
  (joint1 b, joint2 b, joint3 b) = (1%nat, 2%nat, 3%nat) /\
  Toy.joints (model b) =
    [(0%nat, JointModelRY, joint1_placement_ Toy.closed, "link_B1"%string);
     (1%nat, JointModelRY, joint2_placement_ Toy.closed, "link_A2"%string);
     (2%nat, JointModelRY, joint3_placement_ Toy.closed, "link_B2"%string)] /\
  Toy.bodies (model b) =
    [(1%nat, inertia_link_B, placement_center_link_B Toy.closed);
     (2%nat, inertia_link_A, placement_center_link_A Toy.closed);
     (3%nat, inertia_link_B, placement_center_link_B Toy.closed)] /\
  map (fun g => (geom_name g, parent_joint g, geometry g))
      (collision_model b) =
    [("link_A1"%string, 0%nat, Capsule radius length_link_A);
     ("link_B1"%string, 1%nat, Capsule radius length_link_B);
     ("link_A2"%string, 2%nat, Capsule radius length_link_A);
     ("link_B2"%string, 3%nat, Capsule radius length_link_B)] /\
  events (filter is_AddJoint tr) =
    [AddJoint 0%nat JointModelRY (joint1_placement_ Toy.closed) "link_B1"
              1%nat;
     AddJoint 1%nat JointModelRY (joint2_placement_ Toy.closed) "link_A2"
              2%nat;
     AddJoint 2%nat JointModelRY (joint3_placement_ Toy.closed) "link_B2"
              3%nat] /\
  map (fun g => (geom_name g, parent_joint g, geometry g)) (geometries tr) =
    [("link_A1"%string, 0%nat, Capsule radius length_link_A);
     ("link_B1"%string, 1%nat, Capsule radius length_link_B);
     ("link_A2"%string, 2%nat, Capsule radius length_link_A);
     ("link_B2"%string, 3%nat, Capsule radius length_link_B)] /\
  events (filter is_NewContactModel tr) =
    [NewContactModel CONTACT_3D 3%nat
                     (constraint1_joint1_placement Toy.closed)
                     0%nat (constraint1_joint2_placement Toy.closed)] /\
  constraint_model (run_solver run) =
    RigidContactModel_new Toy.closed CONTACT_3D 3%nat
      (constraint1_joint1_placement Toy.closed) 0%nat
      (constraint1_joint2_placement Toy.closed) /\
  translation (constraint1_joint1_placement Toy.closed) =
    Np.mul_s (XAxis Toy.closed) (F64.lit 6 (-1)) /\
  translation (constraint1_joint2_placement Toy.closed) =
    Np.div_s (Np.mul_s (Np.neg (XAxis Toy.closed)) (F64.lit 1 0))
             (F64.lit 2 0).
Proof.
  split.
  - constructor; reflexivity.
  - apply (four_bar_assembly Toy.closed Toy.joints Toy.bodies (fun gm => gm)
             0 Toy.env0).
    constructor; reflexivity.
Defined.

(** On the small library the three joints are numbered 1, 2, 3 and the
    model holds exactly these three. *)
Example toy_model_has_three_joints :
  let b := built Toy.closed Toy.env0 in
  (joint1 b, joint2 b, joint3 b) = (1%nat, 2%nat, 3%nat) /\
  map (fun j => snd (fst (fst j))) (Toy.joints (model b)) =
    [JointModelRY; JointModelRY; JointModelRY].
Proof. split; reflexivity. Qed.

(** With the unit x axis the loop-closing constraint sits at [0.6] on
    the third joint and at [-0.5] on the base. *)
Example toy_constraint_placements :
  translation (constraint1_joint1_placement Toy.closed) =
    [F64.lit 6 (-1); F64.zero; F64.zero] /\
  translation (constraint1_joint2_placement Toy.closed) =
    [F64.neg (F64.lit 5 (-1)); F64.zero; F64.zero].
Proof. split; vm_compute; reflexivity. Qed.

(* ================================================================= *)
(** ** Further properties of the script *)

(** *** The wrap of line 136, value by value *)

Module WrapFacts.
Import F64 F64Facts.

Lemma pi_n_grid : pi_n = 7074237752028440 * 2 ^ 1023.
Proof. reflexivity. Qed.

(** A sum within half a unit in the last place below [np.pi] rounds up
    to [np.pi]. *)
Lemma round_to_pi n : - 2 ^ 1022 <= n <= 0 -> round (n + pi_n) 1 = pi_n.
Proof.
  intros Hn.
  pose proof pi_n_bounds as [HP1 HP2].
  assert (H22 : 2 ^ 1023 = 2 * 2 ^ 1022) by reflexivity.
  assert (H75 : 2 ^ (52 + 1023) = 2 ^ 53 * 2 ^ 1022) by reflexivity.
  assert (Hpos : 0 < 2 ^ 1022) by (apply Z.pow_pos_nonneg; lia).
  assert (Hlo : 2 ^ (52 + 1023) <= Z.abs (n + pi_n)).
  { rewrite pi_n_grid in *. rewrite H75, H22 in *.
    set (h := 2 ^ 1022) in *. clearbody h. lia. }
  assert (Hhi : Z.abs (n + pi_n) < 2 ^ (53 + 1023)) by lia.
  assert (Hk : ulp_exp (n + pi_n) 1 = 1023).
  { apply Z.le_antisymm;
      [apply ulp_exp_le; [lia | exact Hhi] | apply ulp_exp_ge; [lia | exact Hlo]]. }
  rewrite round_1, Hk.
  destruct (Z.eq_dec n 0) as [->|Hn0].
  { rewrite Z.add_0_l, pi_n_grid.
    rewrite rne_div_exact by (apply Z.pow_pos_nonneg; lia). reflexivity. }
  rewrite pi_n_grid at 2. f_equal.
  unfold rne_div.
  assert (Hq : (n + pi_n) / 2 ^ 1023 = 7074237752028439 /\
               (n + pi_n) mod 2 ^ 1023 = 2 ^ 1023 + n).
  { assert (E : n + pi_n = 2 ^ 1023 * 7074237752028439 + (2 ^ 1023 + n))
      by (rewrite pi_n_grid; lia).
    assert (B : 0 <= 2 ^ 1023 + n < 2 ^ 1023) by lia.
    split; symmetry;
      [apply (Z.div_unique_pos _ _ _ _ B E) | apply (Z.mod_unique_pos _ _ _ _ B E)]. }
  destruct Hq as [-> ->].
  destruct (Z.compare_spec (2 * (2 ^ 1023 + n)) (2 ^ 1023)) as [C|C|C].
  - reflexivity.
  - lia.
  - reflexivity.
Qed.

Lemma wrap1_hair n : - 2 ^ 1022 <= n <= 0 -> wrap1 (Fin n) = Fin (- pi_n).
Proof.
  intros Hn. unfold wrap1.
  assert (Ea : add (Fin n) pi = Fin pi_n).
  { rewrite pi_eq. unfold add. rewrite mk_fin; rewrite round_to_pi by exact Hn;
      [reflexivity | vm_compute; reflexivity]. }
  rewrite Ea, rem_pi. cbv zeta.
  rewrite Z.rem_same by (vm_compute; discriminate). cbn [Z.eqb].
  rewrite pi_eq. unfold sub, neg, add. cbn [Z.add].
  apply (mk_exact _ neg_pi_representable).
Qed.

(** Line 136 on one finite entry of magnitude at most four: the result
    is the entry less a whole multiple of [np.pi], up to the roundings of
    the sum and of the last difference. *)
Lemma wrap1_value n :
  representable n = true -> Z.abs n <= 2 ^ 1076 ->
  exists r k, wrap1 (Fin n) = Fin r /\
              2 * Z.abs (r - (n - k * pi_n)) <= 3 * 2 ^ 1023.
Proof.
  intros Hn Hfour. unfold wrap1. rewrite (add_pi_fin n Hn), rem_pi. cbv zeta.
  pose proof pi_n_bounds as [HP1 HP2]. pose proof pi_n_divide as HPd.
  assert (HP0 : 0 < pi_n).
  { pose proof (Z.pow_pos_nonneg 2 (52 + 1023)). lia. }
  assert (Hhuge : 2 ^ (53 + 1023) < huge) by (vm_compute; reflexivity).
  assert (H23 : 0 < 2 ^ 1023) by (apply Z.pow_pos_nonneg; lia).
  (* the rounding of the sum *)
  assert (Hs : 2 * Z.abs (round (n + pi_n) 1 - (n + pi_n)) <= 2 * 2 ^ 1023).
  { pose proof (round_err (n + pi_n)) as He.
    assert (2 ^ ulp_exp (n + pi_n) 1 <= 2 ^ 1024).
    { apply Z.pow_le_mono_r; [lia|]. apply ulp_exp_le; [lia|].
      assert (E1 : 2 ^ (53 + 1024) = 2 * 2 ^ 1076) by reflexivity.
      assert (E2 : 2 ^ (53 + 1023) = 2 ^ 1076) by reflexivity.
      rewrite E1. rewrite E2 in HP2.
      set (c := 2 ^ 1076) in *. clearbody c. lia. }
    change (2 ^ 1024) with (2 * 2 ^ 1023) in H. lia. }
  apply representable_spec in Hn as [En _].
  set (x := round (n + pi_n) 1) in *.
  pose proof (Z.quot_rem' x pi_n) as Hqr.
  set (t := x ÷ pi_n) in *.
  assert (Hsub : forall a, sub (Fin a) pi = mk (a - pi_n) 1).
  { intros a. rewrite pi_eq. reflexivity. }
  destruct (Z.eqb_spec (Z.rem x pi_n) 0) as [E0|E0].
  - exists (- pi_n), t. split.
    + rewrite Hsub. apply (mk_exact _ neg_pi_representable).
    + replace (- pi_n - (n - t * pi_n)) with (x - (n + pi_n)) by lia. lia.
  - destruct (Z.ltb_spec (Z.rem x pi_n) 0) as [Hm|Hm].
    + assert (Hx : x < 0).
      { destruct (Z_lt_le_dec x 0) as [H|H]; [exact H|].
        pose proof (Z.rem_bound_pos x pi_n H HP0). lia. }
      pose proof (Z.rem_bound_pos_neg x pi_n HP0 ltac:(lia)) as Hb.
      assert (Hd : (2 ^ 1023 | Z.rem x pi_n)).
      { replace (Z.rem x pi_n) with (x - pi_n * t) by lia.
        apply Z.divide_sub_r; [now apply add_pi_grid|].
        now apply Z.divide_mul_l. }
      set (m := Z.rem x pi_n) in *.
      assert (Ea : add (Fin m) pi = Fin (m + pi_n)).
      { rewrite pi_eq. unfold add.
        assert (E : round (m + pi_n) 1 = m + pi_n).
        { apply round_exact with 1023; [lia | now apply Z.divide_add_r | lia]. }
        rewrite mk_fin; rewrite E; [reflexivity | lia]. }
      rewrite Ea, Hsub.
      replace (m + pi_n - pi_n) with m by lia.
      exists m, (t - 1). split.
      * assert (E : round m 1 = m).
        { apply round_exact with 1023; [lia | exact Hd | lia]. }
        rewrite mk_fin; rewrite E; [reflexivity | lia].
      * replace (m - (n - (t - 1) * pi_n)) with (x - (n + pi_n)) by lia. lia.
    + assert (Hx : 0 <= x).
      { destruct (Z_lt_le_dec x 0) as [H|H]; [|exact H].
        pose proof (Z.rem_bound_pos_neg x pi_n HP0 ltac:(lia)). lia. }
      pose proof (Z.rem_bound_pos x pi_n Hx HP0) as Hb.
      set (m := Z.rem x pi_n) in *.
      rewrite Hsub.
      assert (Hlt : round (m - pi_n) 1 < 0) by (apply round_neg; lia).
      assert (Hu : ulp_exp (m - pi_n) 1 <= 1023) by (apply ulp_exp_le; lia).
      assert (Hge : - pi_n <= round (m - pi_n) 1).
      { apply round_ge; [|lia].
        apply Z.divide_opp_r.
        apply Z.divide_trans with (2 ^ 1023); [|exact HPd].
        apply pow2_divide. split; [apply ulp_exp_nonneg | exact Hu]. }
      pose proof (round_err (m - pi_n)) as He.
      assert (2 ^ ulp_exp (m - pi_n) 1 <= 2 ^ 1023)
        by (apply Z.pow_le_mono_r; lia).
      exists (round (m - pi_n) 1), t. split.
      * apply mk_fin. lia.
      * replace (round (m - pi_n) 1 - (n - t * pi_n))
          with ((round (m - pi_n) 1 - (m - pi_n)) + (x - (n + pi_n))) by lia.
        lia.
Qed.

End WrapFacts.

(** *** Counting along the two loops *)

Section MoreScriptFacts.

Context (L : Library).


(** When the loop is left by [break], its variables [q] and [y] are
    those of a state at which the test of line 121 passed. *)
Lemma ik_loop_break_state b cm cd env n :
  forall done s,
  broke (result (ik_loop L b cm cd n done s) env) = true ->
  exists s0,
    ik_q (ik_final (result (ik_loop L b cm cd n done s) env)) = ik_q s0 /\
    ik_y (ik_final (result (ik_loop L b cm cd n done s) env)) = ik_y s0 /\
    fst (result (ik_body L b cm cd s0) env) = true.
Proof.
  induction n as [|n IH]; intros done s; [discriminate|].
  unfold result at 1 2 3. rewrite ik_loop_S. cbv zeta.
  destruct (fst (fst (ik_body L b cm cd s env))) eqn:E; cbn [fst].
  - intros _. exists s. unfold result. rewrite E.
    rewrite ik_body_run in *. cbv zeta in *.
    destruct (converged _ _); [cbn; auto | discriminate].
  - apply IH.
Qed.

(** Every pass prints exactly one line. *)
Lemma ik_loop_prints b cm cd env n :
  forall done s,
  (List.length (filter is_Print (trace (ik_loop L b cm cd n done s) env)) + done
   = iterations (result (ik_loop L b cm cd n done s) env))%nat.
Proof.
  induction n as [|n IH]; intros done s; [reflexivity|].
  unfold result, trace. rewrite ik_loop_S. cbv zeta.
  pose proof (ik_body_trace L b cm cd s env) as Ht. cbv zeta in Ht.
  unfold result at 1 2, trace at 1 in Ht.
  destruct (ik_body L b cm cd s env) as [[stop s'] l]. cbn [fst snd] in *.
  subst l. destruct stop; cbn [fst snd].
  - rewrite filter_app, length_app. cbn. lia.
  - rewrite !filter_app, !length_app.
    specialize (IH (S done) s').
    cbn [filter is_Print event List.length app] in *.
    replace (List.length (filter is_Print (trace (ik_measure L b cm s) env)))
      with 0%nat by reflexivity.
    replace (List.length
               (filter is_Print
                  (trace (ik_step L b cd s
                            (fst (ik_measure L b cm s env))) env)))
      with 1%nat by reflexivity.
    lia.
Qed.


(** The dual variable keeps its shape when the library keeps its own:
    a constraint value of [cd] entries and a solution as long as the
    right-hand side. *)
Lemma map2_length f a b :
  List.length (Np.map2 f a b) = Nat.min (List.length a) (List.length b).
Proof.
  revert b. induction a as [|x a IH]; intros [|y b]; cbn; auto.
Qed.

Lemma ik_step_y_length b cd s m env :
  (forall k rhs, List.length (solve L k rhs) = List.length rhs) ->
  List.length (constraint_value m) = cd ->
  List.length (ik_y s) = cd ->
  List.length (ik_y (result (ik_step L b cd s m) env)) = cd.
Proof.
  intros Hsolve Hcv Hy.
  change (ik_y (result (ik_step L b cd s m) env)) with
    (dual_update (ik_y s)
       (Np.upto cd
          (solve L (m_kkt m)
             (Np.concatenate
                (Np.sub (Np.neg (constraint_value m)) (Np.mul_s (ik_y s) mu))
                (Np.zeros (nv L (model b))))))).
  unfold dual_update, Np.sub, Np.s_mul, Np.add, Np.neg, Np.upto.
  rewrite map2_length, length_map, map2_length, length_map, length_firstn.
  rewrite Hsolve. unfold Np.concatenate, Np.mul_s, Np.zeros.
  rewrite length_app, map2_length, !length_map, repeat_length. lia.
Qed.

Lemma ik_loop_y_length b cm cd env :
  (forall k rhs, List.length (solve L k rhs) = List.length rhs) ->
  (forall c, List.length (translation (c1Mc2 L c)) = cd) ->
  forall n done s,
    List.length (ik_y s) = cd ->
    List.length (ik_y (ik_final (result (ik_loop L b cm cd n done s) env))) = cd.
Proof.
  intros Hsolve Hcv. induction n as [|n IH]; intros done s Hy; [exact Hy|].
  unfold result. rewrite ik_loop_S. cbv zeta. rewrite ik_body_run. cbv zeta.
  destruct (converged _ _); cbn [fst snd]; [exact Hy|].
  apply IH. apply ik_step_y_length; auto. apply Hcv.
Qed.

(** Entries only the passes of the inverse-kinematics loop make. *)
Lemma script_filter_ik (f : Entry -> bool) fuel env :
  (forall b, forallb (fun e => negb (f e)) (trace (build L) env) &&
             forallb (fun e => negb (f e)) (trace (viewer_setup L b) env) = true) ->
  (forall b q0,
     forallb (fun e => negb (f e)) (trace (ik_setup L b q0) env) = true) ->
  (forall b viz sv r,
     forallb (fun e => negb (f e)) (trace (sim_setup L b viz sv r) env) = true) ->
  (forall b cm s,
     forallb (fun e => negb (f e)) (trace (sim_body L b cm s) env) = true) ->
  filter f (trace (script L fuel) env) = filter f (trace (ik_run L env) env).
Proof.
  intros H1 H2 H3 H4. rewrite script_filter.
  specialize (H1 (built L env)). apply andb_true_iff in H1 as [Hb Hv].
  rewrite (filter_none _ _ Hb), (filter_none _ _ Hv).
  rewrite (filter_none _ _ (H2 _ _)).
  unfold sim_start at 1. rewrite (filter_none _ _ (H3 _ _ _ _)).
  rewrite sim_run_filter_none by exact H4.
  cbn [app]. now rewrite app_nil_r.
Qed.

Lemma ik_loop_result_S b cm cd env n done s :
  result (ik_loop L b cm cd (S n) done s) env =
  let m := result (ik_measure L b cm s) env in
  if converged (primal_feas m) (dual_feas m) then
    mkIKResult L (mkIK L (ik_q s) (ik_y s) (m_data L m) (m_cdata L m) (m_kkt m))
               (S done) true
  else result (ik_loop L b cm cd n (S done) (result (ik_step L b cd s m) env))
              env.
Proof.
  unfold result at 1. rewrite ik_loop_S. cbv zeta. rewrite ik_body_run.
  cbv zeta. destruct (converged _ _); reflexivity.
Qed.

(** When the loop runs out of passes, what it leaves is what the step
    of its last pass produced. *)
Lemma ik_loop_last_step b cm cd env n :
  forall done s,
  broke (result (ik_loop L b cm cd (S n) done s) env) = false ->
  exists s0,
    let m := result (ik_measure L b cm s0) env in
    ik_final (result (ik_loop L b cm cd (S n) done s) env) =
      result (ik_step L b cd s0 m) env /\
    converged (primal_feas m) (dual_feas m) = false.
Proof.
  induction n as [|n IH]; intros done s; rewrite ik_loop_result_S; cbv zeta;
    destruct (converged _ _) eqn:E; try discriminate.
  - intros _. exists s. cbv zeta. split; [reflexivity | exact E].
  - apply IH.
Qed.

End MoreScriptFacts.

(** *** The clock at the exit of the simulation loop *)

Lemma clock_exit_value (n : nat) :
  Z.of_nat (S n) <= 21000000 ->
  F64.leb (clock n) T_sim = true -> F64.leb (clock (S n)) T_sim = false ->
  exists tau, clock (S n) = F64.Fin tau /\
              T_n < tau <= T_n + dt_n + half_ulp.
Proof.
  intros Hn Hbefore Hexit.
  destruct (F64Facts.clock_bounds n ltac:(lia)) as (t0 & Ht0 & Hb).
  rewrite F64Facts.clock_S, Ht0, F64Facts.dt_eq in *.
  rewrite F64Facts.T_sim_eq in *. cbn [F64.leb] in Hbefore.
  apply Z.leb_le in Hbefore. unfold F64.add in *.
  pose proof F64Facts.clock_range_aux as (HE & HB & HH & H2).
  assert (HT : T_n + dt_n + half_ulp < 2 ^ (53 + 1038))
    by (vm_compute; reflexivity).
  assert (Hlo : 0 <= Z.of_nat n * (dt_n - half_ulp))
    by (apply Z.mul_nonneg_nonneg; lia).
  assert (Hu : 2 ^ F64.ulp_exp (t0 + dt_n) 1 <= 2 * half_ulp).
  { rewrite <- H2. apply Z.pow_le_mono_r; [lia|].
    apply F64Facts.ulp_exp_le; [lia|]. lia. }
  pose proof (F64Facts.round_err (t0 + dt_n)) as He.
  assert (Hr : Z.abs (F64.round (t0 + dt_n) 1) < F64.huge) by lia.
  rewrite (F64Facts.mk_fin _ Hr) in *. cbn [F64.leb] in Hexit.
  apply Z.leb_gt in Hexit.
  exists (F64.round (t0 + dt_n) 1). split; [reflexivity|]. lia.
Qed.


Section Extras.

Context (L : Library).


(** X5.  When the loop is left by [break], the [q] that is wrapped into
    [q_sol] and the [y] the loop leaves are those of the very state whose
    residuals passed the test: the break comes before the update, so the
    last pass changes neither. *)
Theorem break_keeps_the_tested_configuration (fuel : nat) (env : Env)
    (H : broke (run_ik (result (script L fuel) env)) = true) :
  let run := result (script L fuel) env in
  exists s0 : IK L,
    let m := result (ik_measure L (run_built run)
                       (constraint_model (run_solver run)) s0) env in
    ik_q (ik_final (run_ik run)) = ik_q s0 /\
    ik_y (ik_final (run_ik run)) = ik_y s0 /\
    q_sol run = wrap (ik_q s0) /\
    F64.ltb (primal_feas m) eps = true /\
    F64.ltb (dual_feas m) eps = true.
Proof.
  cbv zeta. rewrite script_result in *.
  cbn [run_ik run_built run_solver q_sol] in *.
  unfold ik_run in *.
  destruct (ik_loop_break_state L _ _ _ _ _ _ _ H) as (s0 & Hq & Hy & Hs).
  exists s0. rewrite ik_body_stop in Hs. cbv zeta in Hs.
  unfold converged in Hs. apply andb_true_iff in Hs as [Hp Hd].
  repeat split; auto.
  change (fst (fst (result (sim_start L env) env)))
    with (wrap (ik_q (ik_final (result (ik_run L env) env)))).
  unfold ik_run. now rewrite Hq.
Qed.


(** X7.  The script prints exactly one line per pass of the
    inverse-kinematics loop and nothing else: as many lines as the loop
    made passes. *)
Theorem one_print_per_pass (fuel : nat) (env : Env) :
  List.length (filter is_Print (trace (script L fuel) env)) =
  iterations (run_ik (result (script L fuel) env)).
Proof.
  rewrite script_result. cbn [run_ik].
  rewrite script_filter_ik by (intros; reflexivity).
  unfold ik_run. rewrite <- ik_loop_prints. lia.
Qed.

(** X8.  When the simulation loop ends the clock has just passed
    [T_sim]: [T_sim < t <= T_sim + dt + 2^-37] (here in units of
    [2^-1074]), whatever the library computes. *)
Theorem simulation_stops_just_past_T_sim (env : Env) :
  exists (n : nat) (s' : Sim L) (tau : Z),
    (forall extra,
       run_sim (result (script L (n + extra)) env) = Some (s', n)) /\
    sim_t s' = F64.Fin tau /\
    T_n < tau <= T_n + dt_n + half_ulp.
Proof.
  destruct F64Facts.clock_exit as (n & Hn & Hexit & Hbefore).
  destruct n as [|n]; [lia|].
  destruct (clock_exit_value n ltac:(lia) (Hbefore n ltac:(lia)) Hexit)
    as (tau & Ht & Hb).
  pose proof (fun extra =>
    sim_loop_passes L (built L env)
      (snd (fst (result (sim_start L env) env))) env (S n) extra 0%nat
      (snd (result (sim_start L env) env)) Hbefore Hexit) as H.
  cbv zeta in H.
  eexists (S n), _, tau. split; [|split; [|exact Hb]].
  - intros extra. rewrite script_result. cbn [run_sim].
    exact (proj1 (H extra)).
  - rewrite sim_iter_t. exact Ht.
Qed.

(** X9.  The dual variable keeps its shape: when the constraint value
    has [constraint_dim] entries and [solve] returns as many entries as
    its right-hand side has, [y] has [constraint_dim] entries after the
    loop as before it. *)
Theorem dual_variable_keeps_its_shape (fuel : nat) (env : Env)
    (Hsolve : forall k rhs, List.length (solve L k rhs) = List.length rhs)
    (Hcv : forall c, List.length (translation (c1Mc2 L c)) =
                     contact_size L (constraint_model (solver L env))) :
  let run := result (script L fuel) env in
  List.length (ik_y (ik_final (run_ik run))) = constraint_dim (run_solver run).
Proof.
  cbv zeta. rewrite script_result. cbn [run_ik run_solver].
  unfold ik_run. apply ik_loop_y_length.
  - exact Hsolve.
  - exact Hcv.
  - apply repeat_length.
Qed.

(** X11.  When the loop ends without [break], the [q] and [y] it
    leaves come straight out of the update of its last pass, a pass whose
    test had failed: the residuals of the final [q] are never computed.
    The script's loop is the case of [N = 100] passes from [done = 0]. *)
Theorem unconverged_result_is_untested
    (b : Built L) (cm : Contact L) (cd n done : nat) (s : IK L) (env : Env)
    (H : broke (result (ik_loop L b cm cd (S n) done s) env) = false) :
  let r := result (ik_loop L b cm cd (S n) done s) env in
  exists s0 : IK L,
    let m := result (ik_measure L b cm s0) env in
    ik_final r = result (ik_step L b cd s0 m) env /\
    converged (primal_feas m) (dual_feas m) = false /\
    iterations r = (done + S n)%nat.
Proof.
  cbv zeta.
  destruct (ik_loop_last_step L _ _ _ _ _ _ _ H) as (s0 & Hf & Hc).
  exists s0. cbv zeta in *. split; [exact Hf|]. split; [exact Hc|].
  destruct (ik_loop_passes L b cm cd env (S n) done s)
    as (k & Hi & _ & Hb & _).
  cbv zeta in *. rewrite H in Hb.
  destruct Hb as [[Hb _]|[_ Hb]]; [discriminate|]. lia.
Qed.

End Extras.

(** X1.  For entries of magnitude at most four the wrap of line 136
    subtracts a whole multiple of [np.pi]: each entry of [q_sol] is the
    entry of [q] less [k * pi] for an integer [k], to within [3 * 2^-52].
    The multiple may be odd, a half turn. *)
Theorem wrap_subtracts_a_multiple_of_pi (q : Np.array) :
  Forall (fun x => at_most_four x = true) q ->
  Forall2 congruent_mod_pi q (wrap q).
Proof.
  intros Hq. rewrite wrap_map.
  induction Hq as [|x q Hx Hq IH]; constructor; [|exact IH].
  destruct x as [| |n]; try discriminate. cbn [at_most_four] in Hx.
  apply andb_true_iff in Hx as [Hr Hn]. apply Z.leb_le in Hn.
  destruct (WrapFacts.wrap1_value n Hr Hn) as (r & k & -> & Hk).
  exists k. exact Hk.
Qed.

(** X2.  Zero, and every negative angle within [2^-52] of zero, wraps
    to [-pi]: on [[-pi, 0)] the wrap is not the identity. *)
Theorem wrap_of_a_hair_below_zero_is_minus_pi (q : Np.array) :
  Forall (fun x => hair_below_zero x = true) q ->
  wrap q = map (fun _ => F64.neg F64.pi) q.
Proof.
  intros Hq. rewrite wrap_map.
  induction Hq as [|x q Hx Hq IH]; [reflexivity|].
  cbn [map]. rewrite IH. f_equal.
  destruct x as [| |n]; try discriminate. cbn [hair_below_zero] in Hx.
  apply andb_true_iff in Hx as [Hlo Hhi].
  apply Z.leb_le in Hlo, Hhi.
  rewrite WrapFacts.wrap1_hair by lia. now rewrite F64Facts.pi_eq.
Qed.

(** X3.  Near convergence the dual update is exact: when every [y_i]
    and [dy_i] are finite with [dy_i/2 <= y_i <= 2*dy_i], line 133
    leaves [y = dy]. *)
Theorem dual_update_within_factor_two_is_dy (y dy : Np.array) :
  Forall2 (fun yi di => within_factor_two yi di = true) y dy ->
  dual_update y dy = dy.
Proof.
  intros H. induction H as [|yi di ys ds Hx H IH]; [reflexivity|].
  rewrite dual_update_cons, IH. f_equal.
  destruct yi as [| |a]; try discriminate.
  destruct di as [| |c]; try discriminate.
  cbn [within_factor_two] in Hx.
  apply andb_true_iff in Hx as [Hx H2]. apply andb_true_iff in Hx as [Hx H1].
  apply andb_true_iff in Hx as [Ha Hc].
  apply Z.leb_le in H1, H2.
  apply F64Facts.dual_update1; auto.
  now apply F64Facts.sterbenz.
Qed.

(** X10.  Infinite and NaN joint angles are displayed as NaN, finite
    ones as angles in [[-pi, 0)]; whichever it is, no entry of [q_sol]
    compares [>= 0]. *)
Theorem wrap_of_any_doubles (q : Np.array) :
  Forall (fun x => is_double x = true) q ->
  Forall2 (fun x w => nonneg w = false /\
                      if F64.finite x then in_wrap_range w = true
                      else w = F64.NaN)
          q (wrap q).
Proof.
  intros Hq. rewrite wrap_map.
  induction Hq as [|x q Hx Hq IH]; constructor; [|exact IH].
  destruct (wrap1_range x Hx) as [Hn Hr]. split; [exact Hn|].
  destruct (F64.finite x) eqn:Hf.
  - destruct Hr as [Hr|Hr]; [discriminate | exact Hr].
  - now apply wrap1_not_finite.
Qed.

(** *** The properties above at concrete inputs *)


Lemma break_keeps_the_tested_configuration_witness :
  broke (run_ik (result (script Toy.closed 0) Toy.env0)) = true /\
  exists s0 : IK Toy.closed,
    ik_q (ik_final (run_ik (result (script Toy.closed 0) Toy.env0))) = ik_q s0 /\
    q_sol (result (script Toy.closed 0) Toy.env0) = wrap (ik_q s0).
Proof.
  assert (H : broke (run_ik (result (script Toy.closed 0) Toy.env0)) = true)
    by (vm_compute; reflexivity).
  split; [exact H|].
  destruct (break_keeps_the_tested_configuration Toy.closed 0 Toy.env0 H)
    as (s0 & Hq & _ & Hs & _).
  exists s0. split; assumption.
Defined.

Lemma dual_variable_keeps_its_shape_witness :
  List.length (ik_y (ik_final (run_ik (result (script Toy.open 0) Toy.env0)))) =
  constraint_dim (run_solver (result (script Toy.open 0) Toy.env0)).
Proof.
  apply (dual_variable_keeps_its_shape Toy.open 0 Toy.env0).
  - intros k rhs. reflexivity.
  - intros c. reflexivity.
Defined.

Lemma wrap_subtracts_a_multiple_of_pi_witness :
  let q := [F64.lit 1 0; F64.neg (F64.lit 25 (-1)); F64.lit 4 0] in
  Forall (fun x => at_most_four x = true) q /\
  Forall2 congruent_mod_pi q (wrap q).
Proof.
  cbv zeta. split.
  - each_by_evaluation.
  - apply wrap_subtracts_a_multiple_of_pi. each_by_evaluation.
Defined.

Lemma wrap_of_a_hair_below_zero_is_minus_pi_witness :
  let q := [F64.zero; F64.neg (F64.lit 1 (-20)); F64.Fin (-1)] in
  Forall (fun x => hair_below_zero x = true) q /\
  wrap q = map (fun _ => F64.neg F64.pi) q.
Proof.
  cbv zeta. split.
  - each_by_evaluation.
  - apply wrap_of_a_hair_below_zero_is_minus_pi. each_by_evaluation.
Defined.

Lemma dual_update_within_factor_two_is_dy_witness :
  let y := [F64.lit 1 0; F64.lit 3 (-1)] in
  let dy := [F64.lit 17 (-1); F64.lit 2 (-1)] in
  Forall2 (fun yi di => within_factor_two yi di = true) y dy /\
  dual_update y dy = dy.
Proof.
  cbv zeta. split.
  - each_by_evaluation.
  - apply dual_update_within_factor_two_is_dy. each_by_evaluation.
Defined.

Lemma wrap_of_any_doubles_witness :
  let q := [F64.NaN; F64.Inf true; F64.Inf false; F64.lit 1 0] in
  Forall (fun x => is_double x = true) q /\
  Forall2 (fun x w => nonneg w = false /\
                      if F64.finite x then in_wrap_range w = true
                      else w = F64.NaN)
          q (wrap q).
Proof.
  cbv zeta. split.
  - each_by_evaluation.
  - apply wrap_of_any_doubles. each_by_evaluation.
Defined.

Lemma unconverged_result_is_untested_witness :
  let b := built deaf Toy.env0 in
  let sv := solver deaf Toy.env0 in
  let r := result (ik_loop deaf b (constraint_model sv) (constraint_dim sv)
                     2 0 (start sv)) Toy.env0 in
  broke r = false /\ iterations r = 2%nat.
Proof.
  cbv zeta.
  assert (H : broke (result (ik_loop deaf (built deaf Toy.env0)
                               (constraint_model (solver deaf Toy.env0))
                               (constraint_dim (solver deaf Toy.env0))
                               2 0 (start (solver deaf Toy.env0))) Toy.env0)
              = false) by reflexivity.
  split; [exact H|].
  destruct (unconverged_result_is_untested deaf _ _ _ _ _ _ _ H)
    as (s0 & _ & _ & Hi).
  exact Hi.
Defined.
